(** * TodoList.vue: the to-do list component of the slide deck

    A shallow embedding of the [<script setup>] block of the component
    (the item store, its persistence to [localStorage] and the computed
    views), and the properties of it that the design document states.

    Conventions of the embedding.
    - A JavaScript string is the list of its UTF-16 code units ([list N]).
    - The [number] fields of a task hold [Date.now()] readings, integral
      epoch milliseconds: they are modelled in [Z].  The component never
      computes with them, it only stores and serialises them.
    - [Date.now()] and [Math.random()] are inputs of the operation that
      reads them.
    - The reactive array [todos] is a [list Todo]; the object that
      [todos.find] returns is an element of the array, so a write to one of
      its fields is an update of the array at the index where it was found.
    - A block that may throw returns a [completion]: the state at the point
      where it stopped, and the error if it stopped by a throw. *)

From Stdlib Require Import ZArith NArith Ascii String Lia.
From stdpp Require Import base decidable option list gmap.

#[local] Open Scope Z_scope.
#[local] Set Warnings "-register-all".

(** ** JavaScript strings *)

Abbreviation jsstring := (list N).

(** An ASCII literal as a JavaScript string. *)
Definition js (s : string) : jsstring :=
  List.map N_of_ascii (list_ascii_of_string s).

(** ECMAScript [WhiteSpace] and [LineTerminator] code points, the
    characters [String.prototype.trim] strips. *)
Definition isWhiteSpace (c : N) : bool :=
  ((9 <=? c) && (c <=? 13) || (c =? 32) || (c =? 160) || (c =? 5760)
   || (8192 <=? c) && (c <=? 8202) || (c =? 8232) || (c =? 8233)
   || (c =? 8239) || (c =? 8287) || (c =? 12288) || (c =? 65279))%N.

Fixpoint trimStart (s : jsstring) : jsstring :=
  match s with
  | c :: r => if isWhiteSpace c then trimStart r else s
  | [] => []
  end.

Definition trimEnd (s : jsstring) : jsstring :=
  reverse (trimStart (reverse s)).

Definition trim (s : jsstring) : jsstring := trimEnd (trimStart s).

(** [String.prototype.slice(k)] with [0 <= k]. *)
Definition slice_from (k : nat) (s : jsstring) : jsstring := drop k s.

(** ** [Number.prototype.toString(radix)] on integers *)

Definition digit_char (d : N) : N :=
  (if d <? 10 then 48 + d else 87 + d)%N.

Fixpoint digits_radix (fuel : nat) (radix n : N) (acc : jsstring) : jsstring :=
  match fuel with
  | O => acc
  | S fuel' =>
      let acc' := digit_char (n mod radix) :: acc in
      if (n / radix =? 0)%N then acc' else digits_radix fuel' radix (n / radix) acc'
  end.

Definition N_toString (radix n : N) : jsstring :=
  digits_radix (S (N.to_nat (N.log2 n))) radix n [].

Definition Z_toString (radix : N) (z : Z) : jsstring :=
  if z <? 0 then 45%N :: N_toString radix (Z.abs_N z)
  else N_toString radix (Z.abs_N z).

(** ** Completions *)

Inductive Error : Type :=
| SyntaxError
| TypeError
| SecurityError
| QuotaExceededError.

Inductive completion (A : Type) : Type :=
| Normal (a : A)
| Throw (e : Error) (a : A).
Arguments Normal {A} a.
Arguments Throw {A} e a.

(** [try { body } catch (e) { handler }] on a state of type [A]. *)
Definition try_catch {A : Type} (body : completion A)
    (handler : Error → A → completion A) : completion A :=
  match body with
  | Normal a => Normal a
  | Throw e a => handler e a
  end.

(** ** JSON

    [JSON.stringify] and [JSON.parse] on the values the component hands
    them.  A number is kept exact: [JNum z] is the integer [z], and
    [JDec m k] the decimal [m / 10^k] with [m] not a multiple of ten; the
    rounding of a literal to the nearest double is not modelled, so the
    model is the platform's on the safe integers (below [2^53] in
    magnitude), which is where timestamps live.  The order of the
    properties of an object is not modelled either: an object is the list of
    its bindings as written, and a later binding of a key overrides an
    earlier one. *)

Module JSON.

Inductive json : Type :=
| JNull
| JBool (b : bool)
| JNum (z : Z)
| JDec (m : Z) (k : positive)
| JStr (s : jsstring)
| JArr (l : list json)
| JObj (props : list (jsstring * json)).

(** *** Serialisation *)

(** [\uXXXX], lower-case hexadecimal. *)
Definition escape_u (c : N) : jsstring :=
  [92; 117; digit_char (c / 4096 mod 16); digit_char (c / 256 mod 16);
   digit_char (c / 16 mod 16); digit_char (c mod 16)]%N.

(** One code unit that is not a surrogate, as [QuoteJSONString] writes it. *)
Definition quote_unit (c : N) : jsstring :=
  (if c =? 8 then [92; 98]          (* \b *)
   else if c =? 9 then [92; 116]    (* \t *)
   else if c =? 10 then [92; 110]   (* \n *)
   else if c =? 12 then [92; 102]   (* \f *)
   else if c =? 13 then [92; 114]   (* \r *)
   else if c =? 34 then [92; 34]    (* escaped quote *)
   else if c =? 92 then [92; 92]    (* escaped backslash *)
   else if c <? 32 then escape_u c
   else [c])%N.

Definition is_high_surrogate (c : N) : bool := ((55296 <=? c) && (c <=? 56319))%N.
Definition is_low_surrogate (c : N) : bool := ((56320 <=? c) && (c <=? 57343))%N.

(** A surrogate pair is written as it is, a lone surrogate is escaped. *)
Fixpoint quote_body (s : jsstring) : jsstring :=
  match s with
  | [] => []
  | c :: r =>
      if is_high_surrogate c then
        match r with
        | c2 :: r2 =>
            if is_low_surrogate c2 then c :: c2 :: quote_body r2
            else escape_u c ++ quote_body r
        | [] => escape_u c
        end
      else if is_low_surrogate c then escape_u c ++ quote_body r
      else quote_unit c ++ quote_body r
  end.

Definition quote (s : jsstring) : jsstring := 34%N :: quote_body s ++ [34%N].

(** [Number::toString] on a decimal that is not an integer: [ds] are the
    digits of [|m|] and the value is [0.ds * 10^n]. *)
Definition decimal_toString (m : Z) (k : positive) : jsstring :=
  let ds := N_toString 10 (Z.abs_N m) in
  let n := Z.of_nat (length ds) - Z.pos k in
  let body :=
    if (0 <? n) && (n <=? 21) then
      take (Z.to_nat n) ds ++ 46%N :: drop (Z.to_nat n) ds
    else if (-6 <? n) && (n <=? 0) then
      [48; 46]%N ++ replicate (Z.to_nat (- n)) 48%N ++ ds
    else
      let e := n - 1 in
      let mant :=
        match ds with
        | [] => []
        | [d] => [d]
        | d :: ds' => d :: 46%N :: ds'
        end in
      mant ++ [101%N; if e <? 0 then 45%N else 43%N] ++ N_toString 10 (Z.abs_N e) in
  if m <? 0 then 45%N :: body else body.

Definition join (sep : N) (parts : list jsstring) : jsstring :=
  match parts with
  | [] => []
  | p :: ps => p ++ concat (List.map (λ q, sep :: q) ps)
  end.

Fixpoint stringify (v : json) : jsstring :=
  match v with
  | JNull => js "null"
  | JBool true => js "true"
  | JBool false => js "false"
  | JNum z => Z_toString 10 z
  | JDec m k => decimal_toString m k
  | JStr s => quote s
  | JArr l => 91%N :: join 44 (List.map stringify l) ++ [93%N]
  | JObj props =>
      123%N :: join 44 (List.map (λ p, quote (fst p) ++ 58%N :: stringify (snd p)) props)
        ++ [125%N]
  end.

(** *** Parsing *)

Definition is_ws (c : N) : bool :=
  ((c =? 32) || (c =? 9) || (c =? 10) || (c =? 13))%N.

Fixpoint skip_ws (s : jsstring) : jsstring :=
  match s with
  | c :: r => if is_ws c then skip_ws r else s
  | [] => []
  end.

Definition is_digit (c : N) : bool := ((48 <=? c) && (c <=? 57))%N.

Fixpoint span_digits (s : jsstring) : jsstring * jsstring :=
  match s with
  | c :: r =>
      if is_digit c then let '(ds, rest) := span_digits r in (c :: ds, rest)
      else ([], s)
  | [] => ([], [])
  end.

Definition digits_value (ds : jsstring) : N :=
  foldl (λ acc d, 10 * acc + (d - 48))%N 0%N ds.

Definition hex_value (c : N) : option N :=
  (if (48 <=? c) && (c <=? 57) then Some (c - 48)
   else if (97 <=? c) && (c <=? 102) then Some (c - 87)
   else if (65 <=? c) && (c <=? 70) then Some (c - 55)
   else None)%N.

Definition hex4 (h1 h2 h3 h4 : N) : option N :=
  a ← hex_value h1; b ← hex_value h2; c ← hex_value h3; d ← hex_value h4;
  Some (((a * 16 + b) * 16 + c) * 16 + d)%N.

(** The character after a backslash, other than [u]. *)
Definition unescape (e : N) : option N :=
  (if e =? 34 then Some 34
   else if e =? 92 then Some 92
   else if e =? 47 then Some 47
   else if e =? 98 then Some 8
   else if e =? 102 then Some 12
   else if e =? 110 then Some 10
   else if e =? 114 then Some 13
   else if e =? 116 then Some 9
   else None)%N.

(** The characters of a string literal after its opening quote, up to and
    including the closing quote. *)
Fixpoint parse_string_body (s : jsstring) : option (jsstring * jsstring) :=
  match s with
  | [] => None
  | c :: r =>
      if (c =? 34)%N then Some ([], r)
      else if (c =? 92)%N then
        match r with
        | [] => None
        | e :: r1 =>
            if (e =? 117)%N then
              match r1 with
              | h1 :: h2 :: h3 :: h4 :: r2 =>
                  u ← hex4 h1 h2 h3 h4;
                  '(str, rest) ← parse_string_body r2;
                  Some (u :: str, rest)
              | _ => None
              end
            else
              u ← unescape e;
              '(str, rest) ← parse_string_body r1;
              Some (u :: str, rest)
        end
      else if (c <? 32)%N then None
      else '(str, rest) ← parse_string_body r; Some (c :: str, rest)
  end.

(** [m / 10^k] for [k] digits after the point, in lowest terms. *)
Fixpoint shift_right (k : nat) (neg : bool) (m : N) : json :=
  match k with
  | O => JNum (if neg then - Z.of_N m else Z.of_N m)
  | S k' =>
      if (m mod 10 =? 0)%N then shift_right k' neg (m / 10)
      else JDec (if neg then - Z.of_N m else Z.of_N m) (Pos.of_nat k)
  end.

(** The value [mant * 10^scale], negated when [neg]. *)
Definition make_number (neg : bool) (mant : N) (scale : Z) : json :=
  if 0 <=? scale then
    let v := Z.of_N mant * 10 ^ scale in JNum (if neg then - v else v)
  else shift_right (Z.to_nat (- scale)) neg mant.

(** The parts of a number literal: sign, integer part, fraction, exponent. *)
Definition number_sign (s : jsstring) : bool * jsstring :=
  match s with
  | c :: r => if (c =? 45)%N then (true, r) else (false, s)
  | [] => (false, s)
  end.

Definition number_int (s : jsstring) : option (jsstring * jsstring) :=
  match s with
  | c :: r =>
      if (c =? 48)%N then Some ([48%N], r)
      else if is_digit c then Some (span_digits s)
      else None
  | [] => None
  end.

Definition number_frac (s : jsstring) : option (jsstring * jsstring) :=
  match s with
  | c :: r =>
      if (c =? 46)%N then
        match span_digits r with
        | ([], _) => None
        | (ds, r') => Some (ds, r')
        end
      else Some ([], s)
  | [] => Some ([], s)
  end.

Definition number_exp (s : jsstring) : option (Z * jsstring) :=
  match s with
  | c :: r =>
      if ((c =? 101) || (c =? 69))%N then
        let '(eneg, r1) :=
          match r with
          | g :: r' =>
              if (g =? 45)%N then (true, r')
              else if (g =? 43)%N then (false, r')
              else (false, r)
          | [] => (false, r)
          end in
        match span_digits r1 with
        | ([], _) => None
        | (ds, r2) =>
            let e := Z.of_N (digits_value ds) in
            Some (if eneg then - e else e, r2)
        end
      else Some (0, s)
  | [] => Some (0, s)
  end.

Definition parse_number (s : jsstring) : option (json * jsstring) :=
  let '(neg, s1) := number_sign s in
  '(ip, s2) ← number_int s1;
  '(fp, s3) ← number_frac s2;
  '(ex, s4) ← number_exp s3;
  Some (make_number neg (digits_value (ip ++ fp)) (ex - Z.of_nat (length fp)), s4).

(** A literal [true], [false] or [null]. *)
Definition parse_literal (s : jsstring) : option (json * jsstring) :=
  if decide (take 4 s = js "true") then Some (JBool true, drop 4 s)
  else if decide (take 5 s = js "false") then Some (JBool false, drop 5 s)
  else if decide (take 4 s = js "null") then Some (JNull, drop 4 s)
  else None.

(** Recursive descent.  Every call takes one unit of [fuel]; twice the
    length of the text, and two more, is always enough (see
    [parse_value_fuel]). *)
Fixpoint parse_value (fuel : nat) (s : jsstring) : option (json * jsstring) :=
  match fuel with
  | O => None
  | S fuel' =>
      match skip_ws s with
      | [] => None
      | c :: r =>
          if (c =? 123)%N then
            match skip_ws r with
            | [] => None
            | c' :: r' =>
                if (c' =? 125)%N then Some (JObj [], r')
                else
                  '(props, rest) ← parse_members fuel' (c' :: r');
                  Some (JObj props, rest)
            end
          else if (c =? 91)%N then
            match skip_ws r with
            | [] => None
            | c' :: r' =>
                if (c' =? 93)%N then Some (JArr [], r')
                else
                  '(l, rest) ← parse_elements fuel' (c' :: r');
                  Some (JArr l, rest)
            end
          else if (c =? 34)%N then
            '(str, rest) ← parse_string_body r; Some (JStr str, rest)
          else if (c =? 45)%N || is_digit c then parse_number (c :: r)
          else parse_literal (c :: r)
      end
  end
with parse_elements (fuel : nat) (s : jsstring) : option (list json * jsstring) :=
  match fuel with
  | O => None
  | S fuel' =>
      '(v, rest) ← parse_value fuel' s;
      match skip_ws rest with
      | [] => None
      | c :: r =>
          if (c =? 44)%N then
            '(l, rest') ← parse_elements fuel' r; Some (v :: l, rest')
          else if (c =? 93)%N then Some ([v], r)
          else None
      end
  end
with parse_members (fuel : nat) (s : jsstring)
    : option (list (jsstring * json) * jsstring) :=
  match fuel with
  | O => None
  | S fuel' =>
      match skip_ws s with
      | [] => None
      | q :: r =>
          if (q =? 34)%N then
            '(key, rest) ← parse_string_body r;
            match skip_ws rest with
            | [] => None
            | c :: r1 =>
                if (c =? 58)%N then
                  '(v, rest1) ← parse_value fuel' r1;
                  match skip_ws rest1 with
                  | [] => None
                  | d :: r2 =>
                      if (d =? 44)%N then
                        '(props, rest2) ← parse_members fuel' r2;
                        Some ((key, v) :: props, rest2)
                      else if (d =? 125)%N then Some ([(key, v)], r2)
                      else None
                  end
                else None
            end
          else None
      end
  end.

(** [JSON.parse(text)]; [None] is the [SyntaxError] it throws. *)
Definition parse (text : jsstring) : option json :=
  '(v, rest) ← parse_value (2 * length text + 2) text;
  match skip_ws rest with
  | [] => Some v
  | _ :: _ => None
  end.

(** *** Objects at run time *)

(** [o[key]]: the last binding of [key], [None] for [undefined]. *)
Fixpoint get_prop (key : jsstring) (props : list (jsstring * json)) : option json :=
  match props with
  | [] => None
  | (k, v) :: rest =>
      match get_prop key rest with
      | Some v' => Some v'
      | None => if decide (k = key) then Some v else None
      end
  end.

(** The own enumerable properties that a spread [{...t}] copies. *)
Definition own_props (t : json) : list (jsstring * json) :=
  match t with
  | JObj props => props
  | JArr l => imap (λ i v, (N_toString 10 (N.of_nat i), v)) l
  | JStr s => imap (λ i c, (N_toString 10 (N.of_nat i), JStr [c])) s
  | JNull | JBool _ | JNum _ | JDec _ _ => []
  end.

End JSON.

(** ** The item store *)

Module TodoList.

(** [type Todo]. *)
Record Todo : Type := mkTodo {
  id : jsstring;
  title : jsstring;
  completed : bool;
  createdAt : Z;
  updatedAt : Z;
  editing : option bool
}.

(** The part of an [HTMLInputElement] the component reads. *)
Record HTMLInputElement : Type := mkInput { value : jsstring }.

Inductive Filter : Type := All | Active | Completed.

(** The state the script block declares: [todos], [newTitle], [filter],
    [editingInputRefs], and the callbacks handed to [nextTick] that have not
    run yet (each is determined by the id its closure captured). *)
Record State : Type := mkState {
  todos : list Todo;
  newTitle : jsstring;
  filter : Filter;
  editingInputRefs : gmap (list N) (option HTMLInputElement);
  nextTicks : list jsstring
}.

Definition STORAGE_KEY : jsstring := js "slidev_todos_v1".

Definition set_todos (l : list Todo) (s : State) : State :=
  mkState l (newTitle s) (filter s) (editingInputRefs s) (nextTicks s).

Definition set_newTitle (v : jsstring) (s : State) : State :=
  mkState (todos s) v (filter s) (editingInputRefs s) (nextTicks s).

Definition set_filter (f : Filter) (s : State) : State :=
  mkState (todos s) (newTitle s) f (editingInputRefs s) (nextTicks s).

Definition set_editingInputRefs
    (m : gmap (list N) (option HTMLInputElement)) (s : State) : State :=
  mkState (todos s) (newTitle s) (filter s) m (nextTicks s).

Definition push_nextTick (tid : jsstring) (s : State) : State :=
  mkState (todos s) (newTitle s) (filter s) (editingInputRefs s)
          (nextTicks s ++ [tid]).

Definition set_completed (b : bool) (t : Todo) : Todo :=
  mkTodo (id t) (title t) b (createdAt t) (updatedAt t) (editing t).

Definition set_title (v : jsstring) (t : Todo) : Todo :=
  mkTodo (id t) v (completed t) (createdAt t) (updatedAt t) (editing t).

Definition set_updatedAt (n : Z) (t : Todo) : Todo :=
  mkTodo (id t) (title t) (completed t) (createdAt t) n (editing t).

Definition set_editing (b : bool) (t : Todo) : Todo :=
  mkTodo (id t) (title t) (completed t) (createdAt t) (updatedAt t) (Some b).

(** [todos.find(t => t.id === id)], with the index of the element found
    ([todos.findIndex] returns the same index, or -1 for [None]). *)
Definition find (tid : jsstring) (l : list Todo) : option (nat * Todo) :=
  list_find (λ t, id t = tid) l.

(** [uid()]: [r36] is [Math.random().toString(36)], [now] is [Date.now()]. *)
Definition uid (r36 : jsstring) (now : Z) : jsstring :=
  slice_from 2 r36 ++ Z_toString 36 now.

(** [addTodo()].  [now] is the reading bound to [const now]; [r36] and
    [now_uid] are what [uid()] reads. *)
Definition addTodo (now : Z) (r36 : jsstring) (now_uid : Z) (s : State) : State :=
  let title := trim (newTitle s) in
  match title with
  | [] => s
  | _ :: _ =>
      set_newTitle []
        (set_todos (mkTodo (uid r36 now_uid) title false now now (Some false)
                    :: todos s) s)
  end.

(** [toggleTodo(id)]. *)
Definition toggleTodo (now : Z) (tid : jsstring) (s : State) : State :=
  match find tid (todos s) with
  | None => s
  | Some (k, t) =>
      set_todos
        (<[k := set_updatedAt now (set_completed (negb (completed t)) t)]>
           (todos s)) s
  end.

(** [deleteTodo(id)]: [splice(idx, 1)] when [idx >= 0]. *)
Definition deleteTodo (tid : jsstring) (s : State) : State :=
  match find tid (todos s) with
  | None => s
  | Some (idx, _) => set_todos (delete idx (todos s)) s
  end.

(** [startEdit(id)]. *)
Definition startEdit (tid : jsstring) (s : State) : State :=
  match find tid (todos s) with
  | None => s
  | Some (k, t) =>
      push_nextTick tid (set_todos (<[k := set_editing true t]> (todos s)) s)
  end.

(** [input?.value ?? t.title] for [input = editingInputRefs.get(id)]. *)
Definition edit_value (tid : jsstring) (t : Todo) (s : State) : jsstring :=
  match editingInputRefs s !! tid with
  | Some (Some input) => value input
  | Some None | None => title t
  end.

(** [stopEdit(id, commit)]. *)
Definition stopEdit (now : Z) (tid : jsstring) (commit : bool) (s : State) : State :=
  match find tid (todos s) with
  | None => s
  | Some (k, t) =>
      let t1 :=
        if commit then
          match trim (edit_value tid t s) with
          | [] => t
          | (_ :: _) as val => set_updatedAt now (set_title val t)
          end
        else t in
      set_todos (<[k := set_editing false t1]> (todos s)) s
  end.

(** The computed views. *)
Definition filtered (s : State) : list Todo :=
  match filter s with
  | Active => List.filter (λ t, negb (completed t)) (todos s)
  | Completed => List.filter (λ t, completed t) (todos s)
  | All => todos s
  end.

Definition remainingCount (s : State) : nat :=
  length (List.filter (λ t, negb (completed t)) (todos s)).

Definition completedCount (s : State) : nat :=
  length (List.filter (λ t, completed t) (todos s)).

(** The loop of [clearCompleted()], entered with [n = i + 1]: it reads
    [todos[i].completed], which throws when [todos[i]] is undefined. *)
Fixpoint clearCompleted_loop (n : nat) (l : list Todo) : completion (list Todo) :=
  match n with
  | O => Normal l
  | S i =>
      match l !! i with
      | None => Throw TypeError l
      | Some t =>
          clearCompleted_loop i (if completed t then delete i l else l)
      end
  end.

Definition clearCompleted (s : State) : completion State :=
  match clearCompleted_loop (length (todos s)) (todos s) with
  | Normal l => Normal (set_todos l s)
  | Throw e l => Throw e (set_todos l s)
  end.

(** [handleNewKey(e)], on [e.key]. *)
Definition handleNewKey (key : jsstring) (now : Z) (r36 : jsstring) (now_uid : Z)
    (s : State) : State :=
  if decide (key = js "Enter") then addTodo now r36 now_uid s else s.

(** ** Persistence *)

Import JSON.

(** [localStorage]: the stored items, whether the page is denied access to
    the store (every call then throws), and the longest value, in code
    units, that the store still accepts. *)
Record LocalStorage : Type := mkStorage {
  items : gmap (list N) (list N);
  denied : bool;
  quota : nat
}.

Definition getItem (ls : LocalStorage) (key : jsstring) : completion (option jsstring) :=
  if denied ls then Throw SecurityError None else Normal (items ls !! key).

Definition setItem (ls : LocalStorage) (key v : jsstring) : completion LocalStorage :=
  if denied ls then Throw SecurityError ls
  else if decide (length v ≤ quota ls)%nat
       then Normal (mkStorage (<[key := v]> (items ls)) (denied ls) (quota ls))
       else Throw QuotaExceededError ls.

(** A call of [console.warn(msg, e)]. *)
Inductive LogEntry : Type := Warn (msg : jsstring) (e : Error).

(** The object literal the getter of [watch] builds for a task. *)
Definition durable (t : Todo) : json :=
  JObj [(js "id", JStr (id t)); (js "title", JStr (title t));
        (js "completed", JBool (completed t));
        (js "createdAt", JNum (createdAt t));
        (js "updatedAt", JNum (updatedAt t))].

(** The getter of [watch]: [todos.map(t => ({ ... }))]. *)
Definition snapshot (l : list Todo) : json := JArr (List.map durable l).

(** The callback of [watch], on the store and the console. *)
Definition persist (val : json) (ls : LocalStorage) (out : list LogEntry)
    : completion (LocalStorage * list LogEntry) :=
  try_catch
    match setItem ls STORAGE_KEY (stringify val) with
    | Normal ls' => Normal (ls', out)
    | Throw e ls' => Throw e (ls', out)
    end
    (λ e st, Normal (fst st, snd st ++ [Warn (js "Failed to save todos") e])).

(** [{ ...t, editing: false }]. *)
Definition hydrate (t : json) : list (jsstring * json) :=
  own_props t ++ [(js "editing", JBool false)].

(** The [try] block of the [onMounted] hook: the objects it pushes on
    [todos], in order. *)
Definition load (ls : LocalStorage) : completion (list (list (jsstring * json))) :=
  match getItem ls STORAGE_KEY with
  | Throw e _ => Throw e []
  | Normal None => Normal []
  | Normal (Some []) => Normal []
  | Normal (Some raw) =>
      match parse raw with
      | None => Throw SyntaxError []
      | Some (JArr data) => Normal (List.map hydrate data)
      | Some _ => Normal []
      end
  end.

(** The [onMounted] hook, on what [todos] has gained and the console. *)
Definition onMounted (ls : LocalStorage) (out : list LogEntry)
    : completion (list (list (jsstring * json)) * list LogEntry) :=
  try_catch
    match load ls with
    | Normal objs => Normal (objs, out)
    | Throw e objs => Throw e (objs, out)
    end
    (λ e st,
       Normal (fst st, snd st ++ [Warn (js "Failed to parse localStorage todos") e])).

(** The cast [as Todo[]] is not checked at run time.  [asTodo o] is the
    task that the object [o] is when the cast is right about it. *)
Definition as_string (v : option json) : option jsstring :=
  match v with Some (JStr s) => Some s | _ => None end.

Definition as_boolean (v : option json) : option bool :=
  match v with Some (JBool b) => Some b | _ => None end.

Definition as_number (v : option json) : option Z :=
  match v with Some (JNum z) => Some z | _ => None end.

Definition as_optional_boolean (v : option json) : option (option bool) :=
  match v with
  | None => Some None
  | Some (JBool b) => Some (Some b)
  | Some _ => None
  end.

Definition asTodo (o : list (jsstring * json)) : option Todo :=
  i ← as_string (get_prop (js "id") o);
  t ← as_string (get_prop (js "title") o);
  c ← as_boolean (get_prop (js "completed") o);
  ca ← as_number (get_prop (js "createdAt") o);
  ua ← as_number (get_prop (js "updatedAt") o);
  e ← as_optional_boolean (get_prop (js "editing") o);
  Some (mkTodo i t c ca ua e).

(** ** The component as a transition system *)

Record World : Type := mkWorld {
  state : State;
  localStorage : LocalStorage;
  console : list LogEntry
}.

(** The fields of a task that the getter of [watch] reads. *)
Definition durable_fields (t : Todo) : jsstring * jsstring * bool * Z * Z :=
  (id t, title t, completed t, createdAt t, updatedAt t).

(** The watcher after a handler took the store from [s] to [s']: its
    callback runs once, on the snapshot of [s'], when a write changed
    something its getter had read (the array itself or one of the five
    fields of an element). *)
Definition flush (s s' : State) (ls : LocalStorage) (out : list LogEntry)
    : completion World :=
  if decide (durable_fields <$> todos s = durable_fields <$> todos s')
  then Normal (mkWorld s' ls out)
  else match persist (snapshot (todos s')) ls out with
       | Normal (ls', out') => Normal (mkWorld s' ls' out')
       | Throw e (ls', out') => Throw e (mkWorld s' ls' out')
       end.

(** The state of [setup()], before the hook runs. *)
Definition initial : State := mkState [] [] All ∅ [].

(** The component once mounted on a page whose store is [ls], when the
    stored tasks are tasks. *)
Definition mounted (ls : LocalStorage) : option (completion World) :=
  match onMounted ls [] with
  | Normal (objs, out) =>
      l ← mapM asTodo objs;
      Some (flush initial (set_todos (todos initial ++ l) initial) ls out)
  | Throw e (objs, out) =>
      l ← mapM asTodo objs;
      Some (Throw e (mkWorld (set_todos (todos initial ++ l) initial) ls out))
  end.

(** The events the template binds, with the readings of the clock and of
    the random source that their handlers take.  [RefEditInput] is a call of
    the ref function of an edit field (with the element, or with [null] when
    the field is removed), [TypeEdit] the user typing in the field
    registered for a task, [NextTick] the run of the oldest pending
    [nextTick] callback, which focuses and selects and changes nothing the
    store holds. *)
Inductive Event : Type :=
| InputNewTitle (v : jsstring)
| KeydownNewTitle (key : jsstring) (now : Z) (r36 : jsstring) (now_uid : Z)
| ClickAdd (now : Z) (r36 : jsstring) (now_uid : Z)
| ClickFilter (f : Filter)
| ClickClearCompleted
| ChangeCheckbox (tid : jsstring) (now : Z)
| RefEditInput (tid : jsstring) (el : option HTMLInputElement)
| TypeEdit (tid : jsstring) (v : jsstring)
| KeydownEnterEdit (tid : jsstring) (now : Z)
| KeydownEscEdit (tid : jsstring) (now : Z)
| BlurEdit (tid : jsstring) (now : Z)
| DblclickTitle (tid : jsstring)
| ClickEdit (tid : jsstring)
| ClickDelete (tid : jsstring)
| NextTick.

Definition handle (ev : Event) (s : State) : completion State :=
  match ev with
  | InputNewTitle v => Normal (set_newTitle v s)
  | KeydownNewTitle key now r36 now_uid => Normal (handleNewKey key now r36 now_uid s)
  | ClickAdd now r36 now_uid => Normal (addTodo now r36 now_uid s)
  | ClickFilter f => Normal (set_filter f s)
  | ClickClearCompleted => clearCompleted s
  | ChangeCheckbox tid now => Normal (toggleTodo now tid s)
  | RefEditInput tid el =>
      Normal (set_editingInputRefs (<[tid := el]> (editingInputRefs s)) s)
  | TypeEdit tid v =>
      match editingInputRefs s !! tid with
      | Some (Some _) =>
          Normal (set_editingInputRefs
                    (<[tid := Some (mkInput v)]> (editingInputRefs s)) s)
      | Some None | None => Normal s
      end
  | KeydownEnterEdit tid now => Normal (stopEdit now tid true s)
  | KeydownEscEdit tid now => Normal (stopEdit now tid false s)
  | BlurEdit tid now => Normal (stopEdit now tid true s)
  | DblclickTitle tid => Normal (startEdit tid s)
  | ClickEdit tid => Normal (startEdit tid s)
  | ClickDelete tid => Normal (deleteTodo tid s)
  | NextTick =>
      Normal (mkState (todos s) (newTitle s) (filter s) (editingInputRefs s)
                      (drop 1 (nextTicks s)))
  end.

(** One event: its handler, then the watcher (which runs as well after a
    handler that threw, on what the handler had done by then). *)
Definition dispatch (ev : Event) (w : World) : completion World :=
  match handle ev (state w) with
  | Normal s' => flush (state w) s' (localStorage w) (console w)
  | Throw e s' =>
      match flush (state w) s' (localStorage w) (console w) with
      | Normal w' | Throw _ w' => Throw e w'
      end
  end.

End TodoList.

(** * Properties *)

Import JSON.
Import TodoList.

(** ** Notions used in the statements, and the states of the examples *)

(** The action [add(title)] of the design: the text is typed in the field
    bound to [newTitle], then [addTodo] runs. *)
Definition add (text : jsstring) (now : Z) (r36 : jsstring) (now_uid : Z)
    (s : State) : State :=
  addTodo now r36 now_uid (set_newTitle text s).

Definition sample_state : State :=
  mkState
    [mkTodo (js "k1") (js "Water plants") false 1000 1000 (Some false);
     mkTodo (js "k2") (js "Pay rent") true 900 1200 (Some false);
     mkTodo (js "k3") (js "Read") false 800 800 (Some true)]
    [] All ∅ [].

(** The task that replaces the one [stopEdit] found. *)
Definition edited (now : Z) (raw : jsstring) (commit : bool) (t : Todo) : Todo :=
  set_editing false
    (if commit then
       match trim raw with
       | [] => t
       | (_ :: _) as val => set_updatedAt now (set_title val t)
       end
     else t).

Definition editing_state : State :=
  mkState
    [mkTodo (js "k1") (js "Water plants") false 1000 1000 (Some false);
     mkTodo (js "k2") (js "Pay rent") true 900 1200 (Some true)]
    [] All
    {[ js "k2" := Some (mkInput (js "  new title  ")) ]} [].

Definition toggled (now : Z) (t : Todo) : Todo :=
  set_updatedAt now (set_completed (negb (completed t)) t).

(** What may follow a number in a text. *)
Definition number_end (rest : jsstring) : bool :=
  match rest with
  | [] => true
  | c :: _ => negb (is_digit c || (c =? 46) || (c =? 101) || (c =? 69))%N
  end.

(** Values with nothing nested in them. *)
Definition scalar (v : json) : bool :=
  match v with
  | JNull | JBool _ | JNum _ | JStr _ => true
  | JDec _ _ | JArr _ | JObj _ => false
  end.

(** A text that starts with a comma or a closing bracket or brace. *)
Definition closes (rest : jsstring) : bool :=
  match rest with
  | c :: _ => ((c =? 44) || (c =? 93) || (c =? 125))%N
  | [] => false
  end.

(** The text of a property. *)
Definition member (p : jsstring * json) : jsstring :=
  quote (fst p) ++ 58%N :: stringify (snd p).

Definition empty_storage : LocalStorage := mkStorage ∅ false 5000.

(** What the hook logs when it catches [e]. *)
Definition parse_warning (e : Error) : LogEntry :=
  Warn (js "Failed to parse localStorage todos") e.

Definition garbled_storage : LocalStorage :=
  mkStorage {[ STORAGE_KEY := js "[1,2" ]} false 5000.

Definition object_storage : LocalStorage :=
  mkStorage {[ STORAGE_KEY := js "{}" ]} false 5000.

(** ** Notions used in the further properties *)

(** The value of a digit [digit_char] wrote, and of a run of them in a
    radix (what [parseInt(text, radix)] computes on such a run). *)
Definition digit_value (c : N) : N :=
  (if c <? 58 then c - 48 else c - 87)%N.

Definition radix_value (radix : N) (ds : jsstring) : N :=
  foldl (λ acc c, radix * acc + digit_value c)%N 0%N ds.

(** A character [digit_char] writes in a radix up to 36: [0-9a-z]. *)
Definition is_digit36 (c : N) : bool :=
  ((48 <=? c) && (c <=? 57) || (97 <=? c) && (c <=? 122))%N.

(** What the callback of [watch] logs when it catches [e]. *)
Definition save_warning (e : Error) : LogEntry :=
  Warn (js "Failed to save todos") e.

(** The events whose handlers write no field that the getter of [watch]
    reads. *)
Definition transient (ev : Event) : bool :=
  match ev with
  | InputNewTitle _ | ClickFilter _ | RefEditInput _ _ | TypeEdit _ _
  | KeydownEscEdit _ _ | DblclickTitle _ | ClickEdit _ | NextTick => true
  | KeydownNewTitle key _ _ _ => bool_decide (key ≠ js "Enter")
  | ClickAdd _ _ _ | ClickClearCompleted | ChangeCheckbox _ _
  | KeydownEnterEdit _ _ | BlurEdit _ _ | ClickDelete _ => false
  end.

(** The reading of the clock that the handler of an event takes, when it
    takes one. *)
Definition clock_of (ev : Event) : option Z :=
  match ev with
  | KeydownNewTitle _ now _ _ | ClickAdd now _ _ | ChangeCheckbox _ now
  | KeydownEnterEdit _ now | BlurEdit _ now => Some now
  | InputNewTitle _ | ClickFilter _ | ClickClearCompleted | RefEditInput _ _
  | TypeEdit _ _ | KeydownEscEdit _ _ | DblclickTitle _ | ClickEdit _
  | ClickDelete _ | NextTick => None
  end.

(** A page reload would show the tasks that are in memory: a component
    mounted on the store of [w] holds tasks with the durable fields of those
    of [w], in the same order. *)
Definition survives_reload (w : World) : Prop :=
  ∃ w', mounted (localStorage w) = Some (Normal w')
        ∧ durable_fields <$> todos (state w')
          = durable_fields <$> todos (state w).

(** A title as [addTodo] and [stopEdit] write them: trimmed and not empty. *)
Definition trimmed_title (t : Todo) : Prop :=
  title t ≠ [] ∧ trim (title t) = title t.

(** What no handler ever writes in a task. *)
Definition birth (t : Todo) : jsstring * Z := (id t, createdAt t).

Definition full_storage : LocalStorage := mkStorage ∅ false 3.

Definition blank_edit_state : State :=
  mkState
    [mkTodo (js "k1") (js "Water plants") false 1000 1000 (Some false);
     mkTodo (js "k2") (js "Pay rent") true 900 1200 (Some true)]
    [] All
    {[ js "k2" := Some (mkInput (js "   ")) ]} [].

Definition typing_world : World :=
  mkWorld (set_newTitle (js "Buy milk") initial) empty_storage [].

(** A stored array whose one task claims to be in edit mode. *)
Definition stored_editing : list json :=
  [JObj [(js "id", JStr (js "k9")); (js "title", JStr (js "Old"));
         (js "completed", JBool false); (js "createdAt", JNum 10);
         (js "updatedAt", JNum 10); (js "editing", JBool true)]].

Definition editing_storage : LocalStorage :=
  mkStorage {[ STORAGE_KEY := stringify (JArr stored_editing) ]} false 5000.

(** ** [trim] *)

Lemma trimStart_head (s : jsstring) :
  trimStart s = [] ∨ ∃ c r, trimStart s = c :: r ∧ isWhiteSpace c = false.
Proof.
  induction s as [|c s IH]; simpl; [by left|].
  destruct (isWhiteSpace c) eqn:Hc; [done|]. right. eauto.
Qed.

Lemma trimStart_split (s : jsstring) :
  ∃ a, s = a ++ trimStart s ∧ forallb isWhiteSpace a = true.
Proof.
  induction s as [|c s (a & Hs & Ha)]; simpl; [by exists []|].
  destruct (isWhiteSpace c) eqn:Hc.
  - exists (c :: a). simpl. rewrite Hc, Ha. split; [congruence|done].
  - by exists [].
Qed.

Lemma trimStart_nil (s : jsstring) :
  trimStart s = [] ↔ forallb isWhiteSpace s = true.
Proof.
  induction s as [|c s IH]; simpl; [done|].
  destruct (isWhiteSpace c); simpl; [done|]. split; discriminate.
Qed.

Lemma forallb_reverse {A} (f : A → bool) (l : list A) :
  forallb f (reverse l) = forallb f l.
Proof.
  induction l as [|x l IH]; [done|].
  rewrite reverse_cons, forallb_app, IH. simpl.
  destruct (f x), (forallb f l); done.
Qed.

Lemma trim_nil (s : jsstring) :
  trim s = [] ↔ forallb isWhiteSpace s = true.
Proof.
  unfold trim, trimEnd. split.
  - intros H. apply (f_equal reverse) in H. rewrite reverse_involutive in H.
    change (reverse []) with (@nil N) in H.
    apply trimStart_nil in H. rewrite forallb_reverse in H.
    destruct (trimStart_head s) as [E|(c & r & E & Hc)].
    + by apply trimStart_nil.
    + rewrite E in H. simpl in H. by rewrite Hc in H.
  - intros H. apply trimStart_nil in H. by rewrite H.
Qed.

(** What [trim] returns is the text between a run of white space at the
    start and one at the end, and has white space at neither end. *)
Lemma trim_split (s : jsstring) :
  ∃ a b, s = a ++ trim s ++ b
    ∧ forallb isWhiteSpace a = true ∧ forallb isWhiteSpace b = true
    ∧ (∀ c, head (trim s) = Some c → isWhiteSpace c = false)
    ∧ (∀ c, last (trim s) = Some c → isWhiteSpace c = false).
Proof.
  destruct (trimStart_split s) as (a & Hs & Ha).
  destruct (trimStart_split (reverse (trimStart s))) as (b & Hr & Hb).
  exists a, (reverse b). unfold trim, trimEnd.
  split_and!; [| done | by rewrite forallb_reverse | |].
  - rewrite Hs at 1. f_equal.
    rewrite <- reverse_app, <- Hr. by rewrite reverse_involutive.
  - intros c. rewrite head_reverse. intros Hc.
    destruct (trimStart_head s) as [E|(d & r & E & Hd)].
    { rewrite E in Hc. done. }
    assert (Hl : last (reverse (trimStart s)) = Some d)
      by (by rewrite last_reverse, E).
    rewrite Hr, last_app, Hc in Hl. by injection Hl as ->.
  - intros c. rewrite last_reverse. intros Hc.
    destruct (trimStart_head (reverse (trimStart s))) as [E|(d & r & E & Hd)];
      rewrite E in Hc; simpl in Hc; [done|]. by injection Hc as <-.
Qed.

(** ** The item store *)

Lemma addTodo_empty now r36 now_uid (s : State) :
  trim (newTitle s) = [] → addTodo now r36 now_uid s = s.
Proof. unfold addTodo. by intros ->. Qed.

Lemma addTodo_nonempty now r36 now_uid (s : State) :
  trim (newTitle s) ≠ [] →
  addTodo now r36 now_uid s =
  set_newTitle []
    (set_todos (mkTodo (uid r36 now_uid) (trim (newTitle s)) false now now
                       (Some false) :: todos s) s).
Proof. unfold addTodo. by destruct (trim (newTitle s)). Qed.

(** C1. [add] trims its input.  When nothing is left (the input is empty or
    white space only) the store is unchanged, the collection in particular;
    otherwise the collection gains, at its front, one task whose title is the
    trimmed input, that is not completed and whose [createdAt] and
    [updatedAt] are equal.  Adding "Buy milk" and then "Call mom" to any
    collection gives one whose first two titles are "Call mom", "Buy milk". *)
Theorem add_spec (text : jsstring) (now : Z) (r36 : jsstring) (now_uid : Z)
    (s : State) :
  (trim text = [] → add text now r36 now_uid s = set_newTitle text s
                    ∧ todos (add text now r36 now_uid s) = todos s)
  ∧ (forallb isWhiteSpace text = true →
     todos (add text now r36 now_uid s) = todos s)
  ∧ (trim text ≠ [] →
     ∃ t, todos (add text now r36 now_uid s) = t :: todos s
          ∧ title t = trim text ∧ completed t = false
          ∧ createdAt t = updatedAt t
          ∧ newTitle (add text now r36 now_uid s) = [])
  ∧ (∀ now' r36' now_uid',
       title <$> take 2 (todos (add (js "Call mom") now' r36' now_uid'
                                    (add (js "Buy milk") now r36 now_uid s)))
       = [js "Call mom"; js "Buy milk"]).
Proof.
  unfold add. split_and!.
  - intros H. by rewrite addTodo_empty.
  - intros H%trim_nil. by rewrite addTodo_empty.
  - intros H. rewrite addTodo_nonempty by done. simpl. eauto 10.
  - intros now' r36' now_uid'.
    rewrite !addTodo_nonempty by (by vm_compute). reflexivity.
Qed.

Lemma add_spec_witness :
  todos (add (js "   ") 5 (js "0.4fzz") 5 sample_state) = todos sample_state
  ∧ (∃ t, todos (add (js " Buy milk ") 5 (js "0.4fzz") 5 sample_state)
          = t :: todos sample_state
          ∧ title t = js "Buy milk" ∧ completed t = false
          ∧ createdAt t = updatedAt t
          ∧ newTitle (add (js " Buy milk ") 5 (js "0.4fzz") 5 sample_state) = []).
Proof.
  split.
  - apply (proj1 (proj2 (add_spec (js "   ") 5 (js "0.4fzz") 5 sample_state))).
    vm_compute. reflexivity.
  - apply (proj1 (proj2 (proj2
      (add_spec (js " Buy milk ") 5 (js "0.4fzz") 5 sample_state)))).
    vm_compute. discriminate.
Defined.

(** *** Looking a task up by its id *)

Lemma find_Some (tid : jsstring) (l : list Todo) (k : nat) (t : Todo) :
  find tid l = Some (k, t) ↔
  l !! k = Some t ∧ id t = tid
  ∧ ∀ j t', l !! j = Some t' → (j < k)%nat → id t' ≠ tid.
Proof. unfold find. by rewrite list_find_Some. Qed.

Lemma find_None (tid : jsstring) (l : list Todo) :
  find tid l = None ↔ tid ∉ id <$> l.
Proof.
  unfold find. rewrite list_find_None, Forall_forall, list_elem_of_fmap.
  split.
  - intros H (t & -> & Ht). by apply (H t).
  - intros H t Ht E. apply H. eauto.
Qed.

(** With unique ids, every task of the collection is the one its id finds. *)
Lemma find_unique (l : list Todo) (k : nat) (t : Todo) :
  NoDup (id <$> l) → l !! k = Some t → find (id t) l = Some (k, t).
Proof.
  intros Hnd Hk. apply find_Some. split_and!; [done..|].
  intros j t' Hj Hlt E.
  assert (j = k); [|lia].
  eapply NoDup_lookup; [done| |]; rewrite list_lookup_fmap.
  - by rewrite Hj.
  - rewrite Hk. simpl. by rewrite E.
Qed.

Lemma find_insert (tid : jsstring) (l : list Todo) (k : nat) (t t' : Todo) :
  find tid l = Some (k, t) → id t' = tid → find tid (<[k := t']> l) = Some (k, t').
Proof.
  rewrite !find_Some. intros (Hk & Hid & Hmin) Hid'.
  split_and!; [|done|].
  - apply list_lookup_insert_eq. by eapply lookup_lt_Some.
  - intros j t0 Hj Hlt. rewrite list_lookup_insert_ne in Hj by lia. eauto.
Qed.

(** *** [stopEdit] *)

Lemma stopEdit_Some now tid commit (s : State) k t :
  find tid (todos s) = Some (k, t) →
  stopEdit now tid commit s
  = set_todos (<[k := edited now (edit_value tid t s) commit t]> (todos s)) s.
Proof. unfold stopEdit, edited. by intros ->. Qed.



(** *** [toggleTodo] *)

Lemma toggleTodo_Some now tid (s : State) k t :
  find tid (todos s) = Some (k, t) →
  toggleTodo now tid s = set_todos (<[k := toggled now t]> (todos s)) s.
Proof. unfold toggleTodo, toggled. by intros ->. Qed.

(** C3, as the code has it.  Toggling the task that [id] designates flips
    [completed] and sets [updatedAt] to the reading of the clock; toggling
    twice gives [completed] its first value back; [updatedAt] is then the
    reading of the second toggle, and it grows strictly at each toggle when
    the clock reads, at each, a time later than the one the task holds. *)
Theorem toggle_twice (now1 now2 : Z) (tid : jsstring) (s : State)
    (k : nat) (t : Todo) :
  find tid (todos s) = Some (k, t) →
  ∃ t1 t2,
    todos (toggleTodo now1 tid s) !! k = Some t1
    ∧ todos (toggleTodo now2 tid (toggleTodo now1 tid s)) !! k = Some t2
    ∧ completed t1 = negb (completed t) ∧ updatedAt t1 = now1
    ∧ completed t2 = completed t ∧ updatedAt t2 = now2
    ∧ (updatedAt t < now1 → now1 < now2 →
       updatedAt t < updatedAt t1 ∧ updatedAt t1 < updatedAt t2).
Proof.
  intros Hf.
  assert (Hlt : (k < length (todos s))%nat).
  { apply find_Some in Hf as (Hk & _). by eapply lookup_lt_Some. }
  pose proof (find_insert tid (todos s) k t (toggled now1 t) Hf) as Hf1.
  rewrite (toggleTodo_Some now1 _ _ _ _ Hf).
  rewrite (toggleTodo_Some now2 tid _ k (toggled now1 t)).
  2:{ simpl. apply Hf1. apply find_Some in Hf as (_ & ? & _). done. }
  exists (toggled now1 t), (toggled now2 (toggled now1 t)). simpl.
  split_and!.
  - by apply list_lookup_insert_eq.
  - apply list_lookup_insert_eq. by rewrite length_insert.
  - done.
  - done.
  - by destruct (completed t).
  - done.
  - lia.
Qed.

Lemma toggle_twice_witness :
  ∃ t1 t2,
    todos (toggleTodo 1300 (js "k2") sample_state) !! 1%nat = Some t1
    ∧ todos (toggleTodo 1400 (js "k2") (toggleTodo 1300 (js "k2") sample_state))
        !! 1%nat = Some t2
    ∧ completed t1 = false ∧ updatedAt t1 = 1300
    ∧ completed t2 = true ∧ updatedAt t2 = 1400
    ∧ (1200 < 1300 → 1300 < 1400 →
       1200 < updatedAt t1 ∧ updatedAt t1 < updatedAt t2).
Proof.
  apply (toggle_twice 1300 1400 (js "k2") sample_state 1
           (mkTodo (js "k2") (js "Pay rent") true 900 1200 (Some false))).
  vm_compute. reflexivity.
Defined.

(** C3, as stated, fails: a task added at the reading 1000 of the clock and
    toggled twice while the clock still reads 1000 keeps its [updatedAt]. *)
Lemma toggle_same_millisecond :
  let s0 := add (js "Buy milk") 1000 (js "0.4fzz") 1000 initial in
  let tid := uid (js "0.4fzz") 1000 in
  let s1 := toggleTodo 1000 tid s0 in
  let s2 := toggleTodo 1000 tid s1 in
  (completed <$> todos s0 !! 0%nat) = Some false
  ∧ (completed <$> todos s1 !! 0%nat) = Some true
  ∧ (completed <$> todos s2 !! 0%nat) = Some false
  ∧ (updatedAt <$> todos s0 !! 0%nat) = Some 1000
  ∧ (updatedAt <$> todos s1 !! 0%nat) = Some 1000
  ∧ (updatedAt <$> todos s2 !! 0%nat) = Some 1000
  ∧ ¬ (∀ u0 u1 u2,
         (updatedAt <$> todos s0 !! 0%nat) = Some u0 →
         (updatedAt <$> todos s1 !! 0%nat) = Some u1 →
         (updatedAt <$> todos s2 !! 0%nat) = Some u2 →
         u0 < u1 ∧ u1 < u2).
Proof.
  vm_compute. split_and!; try reflexivity.
  intros H. destruct (H 1000 1000 1000) as [H1 _]; try reflexivity.
  discriminate H1.
Qed.

(** *** [clearCompleted] *)

(** The loop, having come down to [n], has filtered the tasks from [n] on
    and not touched those before. *)
Lemma clearCompleted_loop_spec (n : nat) (l : list Todo) :
  (n ≤ length l)%nat →
  clearCompleted_loop n l
  = Normal (List.filter (λ t, negb (completed t)) (take n l) ++ drop n l).
Proof.
  revert l. induction n as [|i IH]; intros l Hn; simpl; [done|].
  destruct (lookup_lt_is_Some_2 l i) as [t Ht]; [lia|]. rewrite Ht.
  rewrite (take_S_r _ _ _ Ht), List.filter_app. simpl.
  destruct (completed t) eqn:Hc; simpl.
  - rewrite IH by (rewrite length_delete by eauto; lia).
    rewrite delete_take_drop.
    rewrite take_app_le by (rewrite length_take; lia).
    rewrite take_take, Nat.min_id.
    rewrite drop_app_le by (rewrite length_take; lia).
    rewrite drop_ge by (rewrite length_take; lia).
    by rewrite app_nil_r.
  - rewrite IH by lia. rewrite <- app_assoc. simpl.
    by rewrite (drop_S _ _ _ Ht).
Qed.

(** C4. [clearCompleted] returns normally, and the collection it leaves is
    the tasks that were not completed, each as it was, in the order they
    had. *)
Theorem clearCompleted_spec (s : State) :
  clearCompleted s
  = Normal (set_todos (List.filter (λ t, negb (completed t)) (todos s)) s).
Proof.
  unfold clearCompleted. rewrite clearCompleted_loop_spec by done.
  by rewrite firstn_all, drop_all, app_nil_r.
Qed.

(** *** Ids that designate no task *)

Lemma flush_same (s : State) (ls : LocalStorage) (out : list LogEntry) :
  flush s s ls out = Normal (mkWorld s ls out).
Proof. unfold flush. by rewrite decide_True. Qed.

(** C7. For an id that no task of the collection has, [toggleTodo],
    [deleteTodo], [startEdit] and [stopEdit] (committing or cancelling)
    return the store as it was; the events that call them leave the store,
    [localStorage] and the console as they were, and throw nothing. *)
Theorem missing_id_noop (now : Z) (tid : jsstring) (s : State) :
  tid ∉ id <$> todos s →
  toggleTodo now tid s = s
  ∧ deleteTodo tid s = s
  ∧ startEdit tid s = s
  ∧ stopEdit now tid true s = s
  ∧ stopEdit now tid false s = s
  ∧ ∀ (ls : LocalStorage) (out : list LogEntry) (ev : Event),
      ev ∈ [ChangeCheckbox tid now; ClickDelete tid; DblclickTitle tid;
            ClickEdit tid; KeydownEnterEdit tid now; BlurEdit tid now;
            KeydownEscEdit tid now] →
      dispatch ev (mkWorld s ls out) = Normal (mkWorld s ls out).
Proof.
  intros H%find_None.
  assert (E1 : toggleTodo now tid s = s) by (unfold toggleTodo; by rewrite H).
  assert (E2 : deleteTodo tid s = s) by (unfold deleteTodo; by rewrite H).
  assert (E3 : startEdit tid s = s) by (unfold startEdit; by rewrite H).
  assert (E4 : ∀ c, stopEdit now tid c s = s)
    by (intros c; unfold stopEdit; by rewrite H).
  split_and!; try done.
  intros ls out ev Hev. unfold dispatch.
  repeat (apply elem_of_cons in Hev as [->|Hev]);
    [..|by apply elem_of_nil in Hev];
    simpl; rewrite ?E1, ?E2, ?E3, ?E4, flush_same; done.
Qed.

Lemma missing_id_noop_witness :
  toggleTodo 7 (js "zz") sample_state = sample_state
  ∧ deleteTodo (js "zz") sample_state = sample_state
  ∧ startEdit (js "zz") sample_state = sample_state
  ∧ stopEdit 7 (js "zz") true sample_state = sample_state
  ∧ stopEdit 7 (js "zz") false sample_state = sample_state
  ∧ ∀ (ls : LocalStorage) (out : list LogEntry) (ev : Event),
      ev ∈ [ChangeCheckbox (js "zz") 7; ClickDelete (js "zz");
            DblclickTitle (js "zz"); ClickEdit (js "zz");
            KeydownEnterEdit (js "zz") 7; BlurEdit (js "zz") 7;
            KeydownEscEdit (js "zz") 7] →
      dispatch ev (mkWorld sample_state ls out)
      = Normal (mkWorld sample_state ls out).
Proof.
  apply (missing_id_noop 7 (js "zz") sample_state).
  apply find_None. vm_compute. reflexivity.
Defined.

(** *** The computed views *)

Lemma filter_length_split (f : Todo → bool) (l : list Todo) :
  (length (List.filter (λ t, negb (f t)) l) + length (List.filter f l)
   = length l)%nat.
Proof.
  induction l as [|t l IH]; simpl; [done|].
  destruct (f t); simpl; lia.
Qed.

Lemma filter_split_perm (f : Todo → bool) (l : list Todo) :
  List.filter (λ t, negb (f t)) l ++ List.filter f l ≡ₚ l.
Proof.
  induction l as [|t l IH]; simpl; [done|].
  destruct (f t); simpl.
  - rewrite <- Permutation_middle. by f_equiv.
  - by f_equiv.
Qed.

Lemma elem_of_filter_bool (f : Todo → bool) (l : list Todo) (t : Todo) :
  t ∈ List.filter f l ↔ t ∈ l ∧ f t = true.
Proof. by rewrite !list_elem_of_In, List.filter_In. Qed.

(** C8. The two counts add up to the number of tasks.  Under the filter
    "all" the view is the collection; under "active" it is the tasks that are
    not completed and under "completed" those that are, each in the order of
    the collection; the two together are the collection rearranged, and no
    task is in both. *)
Theorem views_partition (s : State) :
  (remainingCount s + completedCount s = length (todos s))%nat
  ∧ filtered (set_filter All s) = todos s
  ∧ filtered (set_filter Active s)
    = List.filter (λ t, negb (completed t)) (todos s)
  ∧ filtered (set_filter Completed s)
    = List.filter (λ t, completed t) (todos s)
  ∧ (∀ t, t ∈ filtered (set_filter Active s) ↔ t ∈ todos s ∧ completed t = false)
  ∧ (∀ t, t ∈ filtered (set_filter Completed s) ↔ t ∈ todos s ∧ completed t = true)
  ∧ filtered (set_filter Active s) ++ filtered (set_filter Completed s)
    ≡ₚ todos s
  ∧ (∀ t, ¬ (t ∈ filtered (set_filter Active s)
             ∧ t ∈ filtered (set_filter Completed s)))
  ∧ remainingCount s = length (filtered (set_filter Active s))
  ∧ completedCount s = length (filtered (set_filter Completed s)).
Proof.
  unfold remainingCount, completedCount, filtered. simpl. split_and!; try done.
  - apply filter_length_split.
  - intros t. rewrite elem_of_filter_bool.
    destruct (completed t); simpl; split; intros [? ?]; done.
  - intros t. by rewrite elem_of_filter_bool.
  - apply (filter_split_perm completed).
  - intros t. rewrite !elem_of_filter_bool. intros [[_ H1] [_ H2]].
    destruct (completed t); done.
Qed.

(** *** What a mutation by id leaves alone *)

Lemma deleteTodo_Some tid (s : State) k t :
  find tid (todos s) = Some (k, t) →
  deleteTodo tid s = set_todos (delete k (todos s)) s.
Proof. unfold deleteTodo. by intros ->. Qed.

Lemma toggleTodo_length now tid (s : State) :
  length (todos (toggleTodo now tid s)) = length (todos s).
Proof.
  unfold toggleTodo. destruct (find tid (todos s)) as [[k t]|]; [|done].
  simpl. apply length_insert.
Qed.

Lemma stopEdit_length now tid commit (s : State) :
  length (todos (stopEdit now tid commit s)) = length (todos s).
Proof.
  unfold stopEdit. destruct (find tid (todos s)) as [[k t]|]; [|done].
  simpl. apply length_insert.
Qed.

(** C10. [toggleTodo] and [stopEdit] keep the length of the collection,
    and an id that designates no task leaves the collection as it was.
    When [id] designates a task, it is the first with that id, at an index
    [k]: [toggleTodo] replaces it by a task with the same [id], [title],
    [createdAt] and [editing]; [stopEdit] by one with the same [id],
    [completed] and [createdAt]; both leave every other index as it was;
    [deleteTodo] removes index [k] and nothing else, so the collection is one
    shorter and the tasks before and after [k] follow each other as before. *)
Theorem per_id_frame (now : Z) (tid : jsstring) (commit : bool) (s : State) :
  length (todos (toggleTodo now tid s)) = length (todos s)
  ∧ length (todos (stopEdit now tid commit s)) = length (todos s)
  ∧ (find tid (todos s) = None →
     todos (toggleTodo now tid s) = todos s
     ∧ todos (stopEdit now tid commit s) = todos s
     ∧ todos (deleteTodo tid s) = todos s)
  ∧ ∀ k t, find tid (todos s) = Some (k, t) →
      (todos s !! k = Some t ∧ id t = tid
       ∧ ∀ j t', todos s !! j = Some t' → (j < k)%nat → id t' ≠ tid)
      ∧ (∃ t', todos (toggleTodo now tid s) = <[k := t']> (todos s)
               ∧ id t' = id t ∧ title t' = title t
               ∧ createdAt t' = createdAt t ∧ editing t' = editing t)
      ∧ (∃ t', todos (stopEdit now tid commit s) = <[k := t']> (todos s)
               ∧ id t' = id t ∧ completed t' = completed t
               ∧ createdAt t' = createdAt t)
      ∧ (∀ j, j ≠ k →
           todos (toggleTodo now tid s) !! j = todos s !! j
           ∧ todos (stopEdit now tid commit s) !! j = todos s !! j)
      ∧ todos (deleteTodo tid s) = take k (todos s) ++ drop (S k) (todos s)
      ∧ length (todos s) = S (length (todos (deleteTodo tid s)))
      ∧ (∀ j, (j < k)%nat → todos (deleteTodo tid s) !! j = todos s !! j)
      ∧ (∀ j, (k ≤ j)%nat → todos (deleteTodo tid s) !! j = todos s !! S j).
Proof.
  split; [apply toggleTodo_length|]. split; [apply stopEdit_length|].
  split.
  { intros Hn. unfold toggleTodo, stopEdit, deleteTodo. by rewrite Hn. }
  intros k t Hf.
  rewrite (toggleTodo_Some _ _ _ _ _ Hf), (stopEdit_Some _ _ _ _ _ _ Hf),
    (deleteTodo_Some _ _ _ _ Hf). simpl.
  pose proof Hf as (Hk & Hid & Hmin)%find_Some.
  split_and!; try done.
  - by exists (toggled now t).
  - eexists. split; [done|]. unfold edited.
    destruct commit; [destruct (trim _)|]; done.
  - intros j Hj. by rewrite !list_lookup_insert_ne.
  - apply delete_take_drop.
  - rewrite length_delete by eauto. apply lookup_lt_Some in Hk. lia.
  - intros j Hj. by apply list_lookup_delete_lt.
  - intros j Hj. by apply list_lookup_delete_ge.
Qed.

Lemma per_id_frame_witness :
  todos (toggleTodo 1300 (js "k2") sample_state)
  = <[1%nat := mkTodo (js "k2") (js "Pay rent") false 900 1300 (Some false)]>
      (todos sample_state)
  ∧ length (todos sample_state)
    = S (length (todos (deleteTodo (js "k2") sample_state))).
Proof.
  destruct (per_id_frame 1300 (js "k2") true sample_state) as (_ & _ & _ & H).
  destruct (H 1%nat (mkTodo (js "k2") (js "Pay rent") true 900 1200 (Some false)))
    as (_ & _ & _ & _ & _ & Hlen & _).
  { vm_compute. reflexivity. }
  split; [vm_compute; reflexivity | exact Hlen].
Defined.

(** ** JSON: numbers *)


Lemma is_digit_digit_char (d : N) : (d < 10)%N → is_digit (digit_char d) = true.
Proof.
  intros H. unfold is_digit, digit_char.
  destruct (N.ltb_spec d 10); [|lia].
  apply andb_true_iff. split; apply N.leb_le; lia.
Qed.

Lemma digits_value_snoc (ds : jsstring) (d : N) :
  digits_value (ds ++ [d]) = (10 * digits_value ds + (d - 48))%N.
Proof. unfold digits_value. by rewrite foldl_app. Qed.

(** The digits [Number.prototype.toString(10)] writes for [n]: decimal
    digits, of value [n], with no leading zero unless [n] is zero. *)
Lemma digits_radix_10 (fuel : nat) (n : N) (acc : jsstring) :
  (0 < fuel)%nat → (n < 2 ^ N.of_nat fuel)%N →
  ∃ ds, digits_radix fuel 10 n acc = ds ++ acc
        ∧ Forall (λ c, is_digit c = true) ds
        ∧ digits_value ds = n
        ∧ (n = 0%N → ds = [48%N])
        ∧ (n ≠ 0%N → ∃ c ds', ds = c :: ds' ∧ c ≠ 48%N).
Proof.
  revert n acc. induction fuel as [|f IH]; intros n acc Hf Hn; [lia|].
  simpl.
  pose proof (N.div_mod n 10 ltac:(lia)) as Hdm.
  pose proof (N.mod_lt n 10 ltac:(lia)) as Hmod.
  remember (n / 10)%N as q eqn:Eq. remember (n mod 10)%N as r eqn:Er.
  clear Eq Er.
  destruct (N.eqb_spec q 0) as [Hq|Hq].
  - exists [digit_char r].
    assert (Hlt : r = n) by lia. rewrite Hlt in *.
    split_and!; [done| | | |].
    + constructor; [by apply is_digit_digit_char|constructor].
    + unfold digits_value, digit_char. simpl.
      destruct (N.ltb_spec n 10); lia.
    + by intros ->.
    + intros Hn0. eexists _, []. split; [done|].
      unfold digit_char. destruct (N.ltb_spec n 10); lia.
  - assert (Hf' : (0 < f)%nat).
    { destruct f; [|lia]. assert (n < 2)%N by exact Hn. lia. }
    assert (Hn' : (q < 2 ^ N.of_nat f)%N).
    { rewrite Nat2N.inj_succ, N.pow_succ_r' in Hn. lia. }
    destruct (IH q (digit_char r :: acc) Hf' Hn')
      as (ds & -> & Hds & Hv & _ & Hhd).
    exists (ds ++ [digit_char r]).
    split_and!.
    + by rewrite <- app_assoc.
    + apply Forall_app. split; [done|].
      constructor; [by apply is_digit_digit_char|constructor].
    + rewrite digits_value_snoc, Hv. unfold digit_char.
      destruct (N.ltb_spec r 10); lia.
    + intros ->. lia.
    + intros _. destruct (Hhd Hq) as (c & ds' & -> & Hc).
      by exists c, (ds' ++ [digit_char r]).
Qed.

Lemma N_toString_10 (n : N) :
  ∃ ds, N_toString 10 n = ds
        ∧ Forall (λ c, is_digit c = true) ds
        ∧ digits_value ds = n
        ∧ (n = 0%N → ds = [48%N])
        ∧ (n ≠ 0%N → ∃ c ds', ds = c :: ds' ∧ c ≠ 48%N).
Proof.
  unfold N_toString.
  destruct (digits_radix_10 (S (N.to_nat (N.log2 n))) n []) as (ds & E & H);
    [lia| |].
  - rewrite Nat2N.inj_succ, N2Nat.id.
    destruct (N.eq_dec n 0%N) as [->|Hn]; [done|].
    apply N.log2_spec. lia.
  - exists ds. by rewrite E, app_nil_r.
Qed.

Lemma span_digits_app (ds rest : jsstring) :
  Forall (λ c, is_digit c = true) ds → number_end rest = true →
  span_digits (ds ++ rest) = (ds, rest).
Proof.
  intros Hds Hrest. induction Hds as [|c ds Hc _ IH]; simpl.
  - destruct rest as [|c r]; [done|]. simpl in *.
    destruct (is_digit c); [done|done].
  - by rewrite Hc, IH.
Qed.

Lemma number_int_digits (ds rest : jsstring) :
  Forall (λ c, is_digit c = true) ds → number_end rest = true →
  (ds = [48%N] ∨ ∃ c ds', ds = c :: ds' ∧ c ≠ 48%N) →
  number_int (ds ++ rest) = Some (ds, rest).
Proof.
  intros Hds Hrest [->|(c & ds' & -> & Hc)]; [done|].
  unfold number_int. change ((c :: ds') ++ rest) with (c :: (ds' ++ rest)).
  cbv beta iota.
  destruct (N.eqb_spec c 48%N); [done|].
  pose proof Hds as [Hc' _]%Forall_cons. rewrite Hc'. f_equal.
  by apply (span_digits_app (c :: ds')).
Qed.

Lemma number_frac_none (rest : jsstring) :
  number_end rest = true → number_frac rest = Some ([], rest).
Proof.
  destruct rest as [|c r]; [done|]. simpl.
  destruct (is_digit c), (c =? 46)%N; done.
Qed.

Lemma number_exp_none (rest : jsstring) :
  number_end rest = true → number_exp rest = Some (0, rest).
Proof.
  destruct rest as [|c r]; [done|]. simpl.
  destruct (is_digit c), (c =? 46)%N, (c =? 101)%N, (c =? 69)%N; done.
Qed.

Lemma number_sign_digits (ds rest : jsstring) :
  Forall (λ c, is_digit c = true) ds → ds ≠ [] →
  number_sign (ds ++ rest) = (false, ds ++ rest).
Proof.
  intros Hds Hne. destruct ds as [|c ds']; [done|]. simpl.
  apply Forall_cons in Hds as [Hc _].
  destruct (N.eqb_spec c 45%N) as [->|]; done.
Qed.

Lemma parse_number_toString (z : Z) (rest : jsstring) :
  number_end rest = true →
  parse_number (Z_toString 10 z ++ rest) = Some (JNum z, rest).
Proof.
  intros Hrest.
  destruct (N_toString_10 (Z.abs_N z)) as (ds & E & Hds & Hv & H0 & Hn0).
  assert (Hshape : ds = [48%N] ∨ ∃ c ds', ds = c :: ds' ∧ c ≠ 48%N).
  { destruct (N.eq_dec (Z.abs_N z) 0%N); [left|right]; auto. }
  assert (Hne : ds ≠ []).
  { by destruct Hshape as [->|(? & ? & -> & _)]. }
  unfold Z_toString, parse_number. rewrite E.
  destruct (Z.ltb_spec z 0) as [Hneg|Hpos].
  - change (number_sign ((45%N :: ds) ++ rest)) with (true, ds ++ rest).
    cbv iota beta.
    rewrite number_int_digits by done. simpl.
    rewrite number_frac_none by done. simpl.
    rewrite number_exp_none by done. simpl.
    rewrite app_nil_r, Hv. unfold make_number. simpl.
    do 3 f_equal. lia.
  - rewrite number_sign_digits by done.
    rewrite number_int_digits by done. simpl.
    rewrite number_frac_none by done. simpl.
    rewrite number_exp_none by done. simpl.
    rewrite app_nil_r, Hv. unfold make_number. simpl.
    do 3 f_equal. lia.
Qed.

(** ** JSON: strings *)

#[local] Ltac cases_N :=
  repeat match goal with
  | |- context [N.eqb ?a ?b] => destruct (N.eqb_spec a b)
  | |- context [N.ltb ?a ?b] => destruct (N.ltb_spec a b)
  | |- context [N.leb ?a ?b] => destruct (N.leb_spec a b)
  | H : context [N.eqb ?a ?b] |- _ => destruct (N.eqb_spec a b)
  | H : context [N.ltb ?a ?b] |- _ => destruct (N.ltb_spec a b)
  | H : context [N.leb ?a ?b] |- _ => destruct (N.leb_spec a b)
  end.

Lemma hex_value_digit_char (d : N) :
  (d < 16)%N → hex_value (digit_char d) = Some d.
Proof.
  intros H. unfold hex_value, digit_char.
  destruct (N.ltb_spec d 10); cases_N; simpl; try lia; f_equal; lia.
Qed.

Lemma hex4_escape (c : N) :
  (c < 65536)%N →
  hex4 (digit_char (c / 4096 mod 16)) (digit_char (c / 256 mod 16))
       (digit_char (c / 16 mod 16)) (digit_char (c mod 16)) = Some c.
Proof.
  intros H. unfold hex4.
  rewrite !hex_value_digit_char by (apply N.mod_lt; lia). simpl. f_equal.
  assert (E2 : (c / 256 = c / 16 / 16)%N) by (by rewrite N.Div0.div_div).
  assert (E3 : (c / 4096 = c / 256 / 16)%N) by (by rewrite N.Div0.div_div).
  pose proof (N.div_mod c 16 ltac:(lia)) as H1.
  pose proof (N.div_mod (c / 16) 16 ltac:(lia)) as H2.
  pose proof (N.div_mod (c / 256) 16 ltac:(lia)) as H3.
  rewrite <- E2 in H2. rewrite <- E3 in H3.
  assert (H4 : (c / 4096 < 16)%N) by (apply N.Div0.div_lt_upper_bound; lia).
  rewrite (N.mod_small (c / 4096) 16) by done.
  pose proof (N.mod_lt (c / 256) 16 ltac:(lia)).
  pose proof (N.mod_lt (c / 16) 16 ltac:(lia)).
  pose proof (N.mod_lt c 16 ltac:(lia)).
  remember (c / 4096)%N as q3. remember (c / 256)%N as q2.
  remember (c / 16)%N as q1.
  remember (q2 mod 16)%N as r2. remember (q1 mod 16)%N as r1.
  remember (c mod 16)%N as r0.
  lia.
Qed.

Lemma parse_string_raw (c : N) (t : jsstring) :
  c ≠ 34%N → c ≠ 92%N → (32 ≤ c)%N →
  parse_string_body (c :: t)
  = '(str, rest) ← parse_string_body t; Some (c :: str, rest).
Proof.
  intros H1 H2 H3. simpl.
  destruct (N.eqb_spec c 34); [done|]. destruct (N.eqb_spec c 92); [done|].
  destruct (N.ltb_spec c 32); [lia|done].
Qed.

Lemma parse_string_escape_u (c : N) (t : jsstring) :
  (c < 65536)%N →
  parse_string_body (escape_u c ++ t)
  = '(str, rest) ← parse_string_body t; Some (c :: str, rest).
Proof.
  intros H. unfold escape_u.
  change (parse_string_body (_ ++ t)) with
    (u ← hex4 (digit_char (c / 4096 mod 16)) (digit_char (c / 256 mod 16))
              (digit_char (c / 16 mod 16)) (digit_char (c mod 16));
     '(str, rest) ← parse_string_body t; Some (u :: str, rest)).
  by rewrite hex4_escape.
Qed.

Lemma parse_string_quote_unit (c : N) (t : jsstring) :
  is_high_surrogate c = false → is_low_surrogate c = false →
  parse_string_body (quote_unit c ++ t)
  = '(str, rest) ← parse_string_body t; Some (c :: str, rest).
Proof.
  intros Hh Hl. unfold quote_unit.
  destruct (N.eqb_spec c 8) as [->|]; [done|].
  destruct (N.eqb_spec c 9) as [->|]; [done|].
  destruct (N.eqb_spec c 10) as [->|]; [done|].
  destruct (N.eqb_spec c 12) as [->|]; [done|].
  destruct (N.eqb_spec c 13) as [->|]; [done|].
  destruct (N.eqb_spec c 34) as [->|]; [done|].
  destruct (N.eqb_spec c 92) as [->|]; [done|].
  destruct (N.ltb_spec c 32).
  - apply parse_string_escape_u. lia.
  - by apply parse_string_raw.
Qed.

Lemma surrogate_bounds (c : N) :
  (is_high_surrogate c = true → 32 ≤ c < 65536 ∧ c ≠ 34 ∧ c ≠ 92)%N
  ∧ (is_low_surrogate c = true → 32 ≤ c < 65536 ∧ c ≠ 34 ∧ c ≠ 92)%N.
Proof.
  unfold is_high_surrogate, is_low_surrogate.
  split; intros [H1%N.leb_le H2%N.leb_le]%andb_true_iff; lia.
Qed.

(** A quoted string reads back as the string. *)
Lemma parse_string_quote_body (s rest : jsstring) :
  parse_string_body (quote_body s ++ 34%N :: rest) = Some (s, rest).
Proof.
  remember (length s) as n eqn:Hn.
  assert (Hle : (length s ≤ n)%nat) by lia. clear Hn.
  revert s Hle. induction n as [|n IH]; intros s Hle.
  { destruct s; [done|simpl in Hle; lia]. }
  destruct s as [|c r]; [done|]. simpl in Hle.
  change (quote_body (c :: r)) with
    (if is_high_surrogate c then
       match r with
       | c2 :: r2 =>
           if is_low_surrogate c2 then c :: c2 :: quote_body r2
           else escape_u c ++ quote_body r
       | [] => escape_u c
       end
     else if is_low_surrogate c then escape_u c ++ quote_body r
     else quote_unit c ++ quote_body r).
  destruct (is_high_surrogate c) eqn:Hh.
  - destruct (proj1 (surrogate_bounds c) Hh) as ([? ?] & ? & ?).
    destruct r as [|c2 r2].
    + rewrite parse_string_escape_u by done. done.
    + destruct (is_low_surrogate c2) eqn:Hl2.
      * destruct (proj2 (surrogate_bounds c2) Hl2) as ([? ?] & ? & ?).
        change ((c :: c2 :: quote_body r2) ++ 34%N :: rest)
          with (c :: c2 :: (quote_body r2 ++ 34%N :: rest)).
        rewrite parse_string_raw by done.
        rewrite parse_string_raw by done.
        rewrite IH by (simpl in Hle; lia). done.
      * rewrite <- app_assoc, parse_string_escape_u by done.
        rewrite IH by (simpl in *; lia). done.
  - destruct (is_low_surrogate c) eqn:Hl.
    + destruct (proj2 (surrogate_bounds c) Hl) as ([? ?] & ? & ?).
      rewrite <- app_assoc, parse_string_escape_u by done.
      rewrite IH by lia. done.
    + rewrite <- app_assoc, parse_string_quote_unit by done.
      rewrite IH by lia. done.
Qed.

(** ** JSON: the fuel of the parser *)

Lemma skip_ws_length (s : jsstring) : (length (skip_ws s) ≤ length s)%nat.
Proof.
  induction s as [|c s IH]; simpl; [lia|]. destruct (is_ws c); simpl; lia.
Qed.

Lemma span_digits_length (s ds rest : jsstring) :
  span_digits s = (ds, rest) → (length s = length ds + length rest)%nat.
Proof.
  revert ds rest. induction s as [|c s IH]; intros ds rest; simpl.
  { by intros [= <- <-]. }
  destruct (is_digit c); [|by intros [= <- <-]].
  destruct (span_digits s) as [ds' rest'] eqn:E. intros [= <- <-].
  simpl. rewrite (IH ds' rest' eq_refl). lia.
Qed.

Lemma parse_string_body_length (s str rest : jsstring) :
  parse_string_body s = Some (str, rest) → (length rest < length s)%nat.
Proof.
  remember (length s) as n eqn:Hn.
  assert (Hle : (length s ≤ n)%nat) by lia. clear Hn.
  revert s str rest Hle. induction n as [|n IH]; intros s str rest Hle H.
  { destruct s; [done|simpl in Hle; lia]. }
  destruct s as [|c r]; [done|]. simpl in Hle, H.
  destruct (c =? 34)%N; [injection H as <- <-; simpl; lia|].
  destruct (c =? 92)%N.
  - destruct r as [|e r1]; [done|].
    destruct (e =? 117)%N.
    + destruct r1 as [|h1 [|h2 [|h3 [|h4 r2]]]]; try done.
      apply bind_Some in H as (u & _ & H).
      apply bind_Some in H as ([str' rest'] & H & [= <- <-]).
      apply IH in H; simpl in *; lia.
    + apply bind_Some in H as (u & _ & H).
      apply bind_Some in H as ([str' rest'] & H & [= <- <-]).
      apply IH in H; simpl in *; lia.
  - destruct (c <? 32)%N; [done|].
    apply bind_Some in H as ([str' rest'] & H & [= <- <-]).
    apply IH in H; simpl in *; lia.
Qed.

Lemma parse_number_length (s rest : jsstring) (v : json) :
  parse_number s = Some (v, rest) → (length rest < length s)%nat.
Proof.
  unfold parse_number. destruct (number_sign s) as [neg s1] eqn:Es.
  intros H.
  apply bind_Some in H as ([ip s2] & Hi & H).
  apply bind_Some in H as ([fp s3] & Hf & H).
  apply bind_Some in H as ([ex s4] & He & [= <- <-]).
  assert (H1 : (length s1 ≤ length s)%nat).
  { unfold number_sign in Es. destruct s as [|c r]; [by injection Es as <- <-|].
    destruct (c =? 45)%N; injection Es as <- <-; simpl; lia. }
  assert (H2 : (length s2 < length s1)%nat).
  { unfold number_int in Hi. destruct s1 as [|c r]; [done|].
    destruct (c =? 48)%N; [injection Hi as <- <-; simpl; lia|].
    destruct (is_digit c) eqn:Hc; [|done]. injection Hi as Hi.
    simpl in Hi. rewrite Hc in Hi.
    destruct (span_digits r) as [ds' rest'] eqn:E. injection Hi as <- <-.
    apply span_digits_length in E. simpl. lia. }
  assert (H3 : (length s3 ≤ length s2)%nat).
  { unfold number_frac in Hf. destruct s2 as [|c r]; [by injection Hf as <- <-|].
    destruct (c =? 46)%N; [|by injection Hf as <- <-].
    destruct (span_digits r) as [[|d ds'] rest'] eqn:E; [done|].
    injection Hf as <- <-. apply span_digits_length in E. simpl in *. lia. }
  assert (H4 : (length s4 ≤ length s3)%nat).
  { unfold number_exp in He. destruct s3 as [|c r]; [by injection He as <- <-|].
    destruct ((c =? 101) || (c =? 69))%N; [|by injection He as <- <-].
    destruct (match r with
              | [] => (false, r)
              | g :: r' =>
                  if (g =? 45)%N then (true, r')
                  else if (g =? 43)%N then (false, r') else (false, r)
              end) as [eneg r1] eqn:Er.
    assert (length r1 ≤ length r)%nat.
    { destruct r as [|g r']; [by injection Er as <- <-|].
      destruct (g =? 45)%N; [injection Er as <- <-; simpl; lia|].
      destruct (g =? 43)%N; injection Er as <- <-; simpl; lia. }
    destruct (span_digits r1) as [[|d ds'] rest'] eqn:E; [done|].
    injection He as <- <-. apply span_digits_length in E. simpl in *. lia. }
  lia.
Qed.

Lemma take_eq_length (k : nat) (s lit : jsstring) :
  take k s = lit → (0 < length lit)%nat → (length (drop k s) < length s)%nat.
Proof.
  intros E Hl. apply (f_equal length) in E. rewrite length_take in E.
  rewrite length_drop. lia.
Qed.

Lemma parse_literal_length (s rest : jsstring) (v : json) :
  parse_literal s = Some (v, rest) → (length rest < length s)%nat.
Proof.
  unfold parse_literal. intros H.
  repeat case_decide; try done; injection H as <- <-;
    (eapply take_eq_length; [eassumption|vm_compute; lia]).
Qed.

(** A parse that succeeds with some fuel consumes at least one character,
    and succeeds, with the same result, with any fuel that is at least twice
    the number of characters it consumes. *)
Lemma parse_fuel (f : nat) :
  (∀ s v r, parse_value f s = Some (v, r) →
     (length r < length s)%nat
     ∧ ∀ g, (2 * (length s - length r) ≤ S g)%nat →
            parse_value g s = Some (v, r))
  ∧ (∀ s l r, parse_elements f s = Some (l, r) →
     (length r < length s)%nat
     ∧ ∀ g, (2 * (length s - length r) ≤ g)%nat →
            parse_elements g s = Some (l, r))
  ∧ (∀ s ps r, parse_members f s = Some (ps, r) →
     (length r < length s)%nat
     ∧ ∀ g, (2 * (length s - length r) ≤ g)%nat →
            parse_members g s = Some (ps, r)).
Proof.
  induction f as [|f (IHv & IHe & IHm)]; [done|].
  split_and!.
  - intros s v r H. cbn [parse_value] in H.
    pose proof (skip_ws_length s) as Hs.
    destruct (skip_ws s) as [|c r0] eqn:Es; [done|]. simpl in Hs.
    destruct (c =? 123)%N eqn:E1; [|destruct (c =? 91)%N eqn:E2;
      [|destruct (c =? 34)%N eqn:E3;
        [|destruct ((c =? 45)%N || is_digit c) eqn:E4]]].
    + pose proof (skip_ws_length r0) as Hs0.
      destruct (skip_ws r0) as [|c' r'] eqn:Es0; [done|]. simpl in Hs0.
      destruct (c' =? 125)%N eqn:E5.
      * injection H as <- <-. split; [lia|].
        intros [|g] Hg; [lia|]. cbn [parse_value].
        by rewrite Es, E1, Es0, E5.
      * apply bind_Some in H as ([ps rest] & H & [= <- <-]).
        apply IHm in H as [Hl Hg']. simpl in Hl. split; [lia|].
        intros [|g] Hg; [lia|]. cbn [parse_value].
        rewrite Es, E1, Es0, E5, Hg' by (simpl; lia). done.
    + pose proof (skip_ws_length r0) as Hs0.
      destruct (skip_ws r0) as [|c' r'] eqn:Es0; [done|]. simpl in Hs0.
      destruct (c' =? 93)%N eqn:E5.
      * injection H as <- <-. split; [lia|].
        intros [|g] Hg; [lia|]. cbn [parse_value].
        by rewrite Es, E1, E2, Es0, E5.
      * apply bind_Some in H as ([l rest] & H & [= <- <-]).
        apply IHe in H as [Hl Hg']. simpl in Hl. split; [lia|].
        intros [|g] Hg; [lia|]. cbn [parse_value].
        rewrite Es, E1, E2, Es0, E5, Hg' by (simpl; lia). done.
    + apply bind_Some in H as ([str rest] & H & [= <- <-]).
      pose proof (parse_string_body_length _ _ _ H) as Hl. split; [lia|].
      intros [|g] Hg; [lia|]. cbn [parse_value].
      by rewrite Es, E1, E2, E3, H.
    + pose proof (parse_number_length _ _ _ H) as Hl. simpl in Hl.
      split; [lia|].
      intros [|g] Hg; [lia|]. cbn [parse_value].
      by rewrite Es, E1, E2, E3, E4.
    + pose proof (parse_literal_length _ _ _ H) as Hl. simpl in Hl.
      split; [lia|].
      intros [|g] Hg; [lia|]. cbn [parse_value].
      by rewrite Es, E1, E2, E3, E4.
  - intros s l r H. cbn [parse_elements] in H.
    apply bind_Some in H as ([v rest] & Hv & H).
    pose proof Hv as [Hl Hg']%IHv.
    pose proof (skip_ws_length rest) as Hs.
    destruct (skip_ws rest) as [|c r0] eqn:Es; [done|]. simpl in Hs.
    destruct (c =? 44)%N eqn:E1; [|destruct (c =? 93)%N eqn:E2; [|done]].
    + apply bind_Some in H as ([l' rest'] & H & [= <- <-]).
      apply IHe in H as [Hl2 Hg2]. split; [lia|].
      intros [|g] Hg; [lia|]. cbn [parse_elements].
      rewrite Hg' by lia. cbn [mbind option_bind].
      rewrite Es, E1, Hg2 by lia. done.
    + injection H as <- <-. split; [lia|].
      intros [|g] Hg; [lia|]. cbn [parse_elements].
      rewrite Hg' by lia. cbn [mbind option_bind].
      by rewrite Es, E1, E2.
  - intros s ps r H. cbn [parse_members] in H.
    pose proof (skip_ws_length s) as Hs.
    destruct (skip_ws s) as [|q r0] eqn:Es; [done|]. simpl in Hs.
    destruct (q =? 34)%N eqn:E1; [|done].
    apply bind_Some in H as ([key rest] & Hk & H).
    pose proof (parse_string_body_length _ _ _ Hk) as Hlk.
    pose proof (skip_ws_length rest) as Hs1.
    destruct (skip_ws rest) as [|c r1] eqn:Es1; [done|]. simpl in Hs1.
    destruct (c =? 58)%N eqn:E2; [|done].
    apply bind_Some in H as ([v rest1] & Hv & H).
    pose proof Hv as [Hl Hg']%IHv.
    pose proof (skip_ws_length rest1) as Hs2.
    destruct (skip_ws rest1) as [|d r2] eqn:Es2; [done|]. simpl in Hs2.
    destruct (d =? 44)%N eqn:E3; [|destruct (d =? 125)%N eqn:E4; [|done]].
    + apply bind_Some in H as ([ps' rest2] & H & [= <- <-]).
      apply IHm in H as [Hl2 Hg2]. split; [lia|].
      intros [|g] Hg; [lia|]. cbn [parse_members].
      rewrite Es, E1, Hk. cbn [mbind option_bind].
      rewrite Es1, E2, Hg' by lia. cbn [mbind option_bind].
      rewrite Es2, E3, Hg2 by lia. done.
    + injection H as <- <-. split; [lia|].
      intros [|g] Hg; [lia|]. cbn [parse_members].
      rewrite Es, E1, Hk. cbn [mbind option_bind].
      rewrite Es1, E2, Hg' by lia. cbn [mbind option_bind].
      by rewrite Es2, E3, E4.
Qed.

(** The fuel [parse] gives is enough: a text that [parse_value] reads with
    some fuel, [parse] reads, and with the same result. *)
Lemma parse_value_fuel (f : nat) (text : jsstring) (v : json) (rest : jsstring) :
  parse_value f text = Some (v, rest) → skip_ws rest = [] →
  parse text = Some v.
Proof.
  intros H Hrest. destruct (parse_fuel f) as (Hv & _ & _).
  destruct (Hv _ _ _ H) as [Hl Hg]. unfold parse.
  rewrite (Hg (2 * length text + 2)%nat) by lia. simpl. by rewrite Hrest.
Qed.

Lemma parse_Some_fuel (text : jsstring) (v : json) :
  parse text = Some v ↔
  ∃ f rest, parse_value f text = Some (v, rest) ∧ skip_ws rest = [].
Proof.
  split.
  - unfold parse. intros H.
    apply bind_Some in H as ([v' rest] & H & Hr).
    destruct (skip_ws rest) eqn:E; [|done]. injection Hr as ->. eauto.
  - intros (f & rest & H & Hr). by eapply parse_value_fuel.
Qed.

(** ** JSON: reading back what [stringify] wrote *)

Lemma closes_number_end (rest : jsstring) :
  closes rest = true → number_end rest = true.
Proof.
  destruct rest as [|c r]; [done|]. simpl. unfold is_digit.
  intros H. cases_N; simpl in *; try done; lia.
Qed.

Lemma closes_skip_ws (rest : jsstring) : closes rest = true → skip_ws rest = rest.
Proof.
  destruct rest as [|c r]; [done|]. simpl. unfold is_ws.
  intros H. cases_N; simpl in *; try done; lia.
Qed.

Lemma Z_toString_10_head (z : Z) :
  ∃ c r, Z_toString 10 z = c :: r ∧ (c = 45%N ∨ is_digit c = true).
Proof.
  unfold Z_toString.
  destruct (N_toString_10 (Z.abs_N z)) as (ds & -> & Hds & _ & H0 & Hn0).
  destruct (z <? 0); [by eauto|].
  destruct (N.eq_dec (Z.abs_N z) 0%N) as [Hz|Hz].
  - rewrite (H0 Hz). eauto.
  - destruct (Hn0 Hz) as (c & ds' & -> & _).
    apply Forall_cons in Hds as [Hc _]. eauto.
Qed.

Lemma parse_value_scalar (v : json) (f : nat) (rest : jsstring) :
  scalar v = true → closes rest = true →
  parse_value (S f) (stringify v ++ rest) = Some (v, rest).
Proof.
  intros Hv Hrest. destruct v as [|[]|z| | | |]; try done.
  - destruct (Z_toString_10_head z) as (c & r & E & Hc).
    pose proof (parse_number_toString z rest (closes_number_end _ Hrest)) as Hp.
    simpl stringify. rewrite E in *.
    change ((c :: r) ++ rest) with (c :: (r ++ rest)) in *.
    assert (Hws : is_ws c = false).
    { unfold is_ws. destruct Hc as [->|Hc]; [done|].
      unfold is_digit in Hc. cases_N; simpl in *; try done; lia. }
    cbn [parse_value skip_ws]. rewrite Hws.
    destruct (N.eqb_spec c 123) as [->|]; [by destruct Hc|].
    destruct (N.eqb_spec c 91) as [->|]; [by destruct Hc|].
    destruct (N.eqb_spec c 34) as [->|]; [by destruct Hc|].
    assert (Hd : ((c =? 45)%N || is_digit c) = true).
    { destruct Hc as [-> | Hd']; [done|by rewrite Hd', orb_true_r]. }
    by rewrite Hd.
  - simpl stringify. unfold quote.
    change ((34%N :: quote_body s ++ [34%N]) ++ rest)
      with (34%N :: ((quote_body s ++ [34%N]) ++ rest)).
    rewrite <- app_assoc. cbn [parse_value skip_ws app].
    change (is_ws 34) with false. cbv iota.
    change (34 =? 123)%N with false. change (34 =? 91)%N with false.
    change (34 =? 34)%N with true. cbv iota.
    by rewrite parse_string_quote_body.
Qed.

Lemma join_cons_cons (sep : N) (p q : jsstring) (ps : list jsstring) :
  join sep (p :: q :: ps) = p ++ sep :: join sep (q :: ps).
Proof. done. Qed.

Lemma join_singleton (sep : N) (p : jsstring) : join sep [p] = p.
Proof. unfold join. simpl. apply app_nil_r. Qed.

Lemma member_shape (key : jsstring) (v : json) (rest : jsstring) :
  member (key, v) ++ rest
  = 34%N :: (quote_body key ++ 34%N :: (58%N :: (stringify v ++ rest))).
Proof. unfold member, quote. simpl. by rewrite <- !app_assoc. Qed.

Lemma parse_members_step (key : jsstring) (v : json) (f : nat) (rest : jsstring) :
  scalar v = true → closes rest = true →
  parse_members (S (S f)) (member (key, v) ++ rest)
  = match rest with
    | d :: r2 =>
        if (d =? 44)%N then
          '(props, rest2) ← parse_members (S f) r2;
          Some ((key, v) :: props, rest2)
        else if (d =? 125)%N then Some ([(key, v)], r2)
        else None
    | [] => None
    end.
Proof.
  intros Hv Hrest. rewrite member_shape.
  pose proof (parse_value_scalar v f rest Hv Hrest) as Hpv.
  remember (S f) as g eqn:Hg.
  cbn [parse_members skip_ws].
  change (is_ws 34) with false. cbv iota.
  change (34 =? 34)%N with true. cbv iota.
  rewrite parse_string_quote_body. cbn [mbind option_bind skip_ws].
  change (is_ws 58) with false. cbv iota.
  change (58 =? 58)%N with true. cbv iota.
  rewrite Hpv. cbn [mbind option_bind].
  by rewrite closes_skip_ws.
Qed.

(** A non-empty object of scalars reads back. *)
Lemma parse_members_scalars (props : list (jsstring * json)) (f : nat)
    (rest : jsstring) :
  props ≠ [] → forallb (λ p, scalar (snd p)) props = true →
  parse_members (S (length props) + f)
    (join 44 (List.map member props) ++ 125%N :: rest)
  = Some (props, rest).
Proof.
  revert f. induction props as [|[key v] props IH]; intros f Hne Hsc; [done|].
  simpl in Hsc. apply andb_true_iff in Hsc as [Hv Hsc].
  destruct props as [|p props].
  - change (List.map member [(key, v)]) with [member (key, v)].
    rewrite join_singleton.
    change (S (length [(key, v)]) + f)%nat with (S (S f)).
    rewrite parse_members_step by done. done.
  - change (List.map member ((key, v) :: p :: props))
      with (member (key, v) :: member p :: List.map member props).
    rewrite join_cons_cons, <- app_assoc.
    change (S (length ((key, v) :: p :: props)) + f)%nat
      with (S (S (length (p :: props) + f))).
    rewrite parse_members_step by done.
    change ((44%N :: join 44 (member p :: List.map member props)) ++ 125%N :: rest)
      with (44%N :: (join 44 (List.map member (p :: props)) ++ 125%N :: rest)).
    cbv iota. change (44 =? 44)%N with true. cbv iota.
    change (S (length (p :: props) + f))%nat with (S (length (p :: props)) + f)%nat.
    rewrite IH by done. done.
Qed.

Lemma stringify_JObj (props : list (jsstring * json)) :
  stringify (JObj props) = 123%N :: join 44 (List.map member props) ++ [125%N].
Proof. done. Qed.

Lemma member_head (p : jsstring * json) : ∃ r, member p = 34%N :: r.
Proof. unfold member, quote. simpl. eauto. Qed.

Lemma parse_value_flat_object (props : list (jsstring * json)) (f : nat)
    (rest : jsstring) :
  props ≠ [] → forallb (λ p, scalar (snd p)) props = true →
  parse_value (S (S (length props)) + f) (stringify (JObj props) ++ rest)
  = Some (JObj props, rest).
Proof.
  intros Hne Hsc.
  pose proof (parse_members_scalars props f rest Hne Hsc) as Hm.
  rewrite stringify_JObj.
  destruct props as [|p props]; [done|].
  destruct (member_head p) as (r & Hr).
  assert (Hj : ∃ r', join 44 (List.map member (p :: props)) = 34%N :: r').
  { change (List.map member (p :: props)) with (member p :: List.map member props).
    unfold join. rewrite Hr. eexists. reflexivity. }
  destruct Hj as (r' & Hj). rewrite Hj in *.
  change ((123%N :: (34%N :: r') ++ [125%N]) ++ rest)
    with (123%N :: 34%N :: ((r' ++ [125%N]) ++ rest)).
  rewrite <- app_assoc.
  change (S (S (length (p :: props))) + f)%nat
    with (S (S (length (p :: props)) + f)).
  change ((34%N :: r') ++ 125%N :: rest) with (34%N :: r' ++ [125%N] ++ rest) in Hm.
  remember (S (length (p :: props)) + f)%nat as g eqn:Hg.
  cbn [parse_value skip_ws].
  change (is_ws 123) with false. cbv iota.
  change (123 =? 123)%N with true. cbv iota.
  cbn [skip_ws]. change (is_ws 34) with false. cbv iota.
  change (34 =? 125)%N with false. cbv iota.
  rewrite Hm. done.
Qed.

(** ** The snapshot reads back *)

Lemma durable_flat (t : Todo) :
  ∃ props, durable t = JObj props ∧ length props = 5%nat
           ∧ forallb (λ p, scalar (snd p)) props = true
           ∧ fst <$> props
             = [js "id"; js "title"; js "completed"; js "createdAt";
                js "updatedAt"].
Proof. eexists. split; [reflexivity|]. done. Qed.

Lemma parse_value_durable (t : Todo) (f : nat) (rest : jsstring) :
  parse_value (7 + f) (stringify (durable t) ++ rest) = Some (durable t, rest).
Proof.
  destruct (durable_flat t) as (props & -> & Hlen & Hsc & _).
  pose proof (parse_value_flat_object props f rest) as H.
  rewrite Hlen in H. apply H; [|done]. by destruct props.
Qed.

Lemma stringify_durable_head (t : Todo) :
  ∃ r, stringify (durable t) = 123%N :: r ++ [125%N].
Proof. unfold durable. rewrite stringify_JObj. eauto. Qed.

Lemma parse_elements_snapshot (l : list Todo) (f : nat) (rest : jsstring) :
  l ≠ [] →
  parse_elements (length l + 7 + f)
    (join 44 (List.map stringify (List.map durable l)) ++ 93%N :: rest)
  = Some (List.map durable l, rest).
Proof.
  induction l as [|t l IH]; intros Hne; [done|].
  replace (length (t :: l) + 7 + f)%nat with (S (7 + (length l + f)))%nat
    by (simpl; lia).
  remember (7 + (length l + f))%nat as g eqn:Hg.
  destruct l as [|t' l].
  - change (List.map stringify (List.map durable [t])) with [stringify (durable t)].
    rewrite join_singleton.
    cbn [parse_elements]. rewrite Hg, parse_value_durable.
    cbn [mbind option_bind skip_ws].
    change (is_ws 93) with false. cbv iota.
    change (93 =? 44)%N with false. change (93 =? 93)%N with true. done.
  - change (List.map stringify (List.map durable (t :: t' :: l)))
      with (stringify (durable t)
              :: stringify (durable t')
              :: List.map stringify (List.map durable l)).
    rewrite join_cons_cons, <- app_assoc.
    cbn [parse_elements]. rewrite Hg at 1. rewrite parse_value_durable.
    cbn [mbind option_bind app skip_ws].
    change (is_ws 44) with false. cbv iota.
    change (44 =? 44)%N with true. cbv iota.
    replace g with (length (t' :: l) + 7 + f)%nat by (rewrite Hg; lia).
    change (stringify (durable t') :: List.map stringify (List.map durable l))
      with (List.map stringify (List.map durable (t' :: l))).
    rewrite IH by done. done.
Qed.

Lemma parse_value_snapshot (l : list Todo) (f : nat) (rest : jsstring) :
  parse_value (length l + 8 + f) (stringify (snapshot l) ++ rest)
  = Some (snapshot l, rest).
Proof.
  unfold snapshot.
  change (stringify (JArr (List.map durable l)))
    with (91%N :: join 44 (List.map stringify (List.map durable l)) ++ [93%N]).
  change ((91%N :: join 44 (List.map stringify (List.map durable l)) ++ [93%N]) ++ rest)
    with (91%N :: ((join 44 (List.map stringify (List.map durable l)) ++ [93%N]) ++ rest)).
  rewrite <- app_assoc.
  replace (length l + 8 + f)%nat with (S (length l + 7 + f)) by lia.
  destruct l as [|t l]; [done|].
  pose proof (parse_elements_snapshot (t :: l) f rest ltac:(done)) as He.
  remember (length (t :: l) + 7 + f)%nat as g eqn:Hg.
  destruct (stringify_durable_head t) as (r & Hr).
  assert (Hj : ∃ r', join 44 (List.map stringify (List.map durable (t :: l)))
                     = 123%N :: r').
  { change (List.map stringify (List.map durable (t :: l)))
      with (stringify (durable t) :: List.map stringify (List.map durable l)).
    unfold join. rewrite Hr. eexists. reflexivity. }
  destruct Hj as (r' & Hj). rewrite Hj in *.
  change ((123%N :: r') ++ [93%N] ++ rest) with (123%N :: r' ++ [93%N] ++ rest).
  change ((123%N :: r') ++ 93%N :: rest) with (123%N :: r' ++ [93%N] ++ rest) in He.
  cbn [parse_value skip_ws].
  change (is_ws 91) with false. cbv iota.
  change (91 =? 123)%N with false. change (91 =? 91)%N with true. cbv iota.
  cbn [skip_ws]. change (is_ws 123) with false. cbv iota.
  change (123 =? 93)%N with false. cbv iota.
  rewrite He. done.
Qed.

Lemma length_join_ge (sep : N) (parts : list jsstring) :
  Forall (λ p, 2 ≤ length p)%nat parts →
  (2 * length parts ≤ length (join sep parts))%nat.
Proof.
  intros H. destruct H as [|p ps Hp Hps]; [done|].
  unfold join. rewrite length_app. simpl length.
  assert (2 * length ps ≤ length (concat (List.map (λ q, sep :: q) ps)))%nat; [|lia].
  induction Hps as [|q ps Hq _ IH]; [done|].
  simpl. rewrite length_app. lia.
Qed.

(** The text [JSON.stringify] writes for the snapshot of a collection is
    text that [JSON.parse] reads, and reads as that snapshot. *)
Lemma parse_stringify_snapshot (l : list Todo) :
  parse (stringify (snapshot l)) = Some (snapshot l).
Proof.
  unfold parse.
  destruct l as [|t l]; [done|].
  pose proof (parse_value_snapshot (t :: l)) as Hp.
  assert (Hlen : (length (t :: l) + 6
                  ≤ 2 * length (stringify (snapshot (t :: l))))%nat).
  { unfold snapshot.
    change (stringify (JArr (List.map durable (t :: l))))
      with (91%N :: join 44 (List.map stringify (List.map durable (t :: l)))
              ++ [93%N]).
    simpl length. rewrite length_app. simpl length.
    pose proof (length_join_ge 44 (List.map stringify (List.map durable (t :: l)))) as Hj.
    rewrite !length_map in Hj. simpl length in Hj.
    assert (Hall : Forall (λ p, 2 ≤ length p)%nat
                     (List.map stringify (List.map durable (t :: l)))).
    { apply Forall_forall. intros p Hp'.
      apply list_elem_of_In, in_map_iff in Hp' as (v & <- & Hv).
      apply in_map_iff in Hv as (t0 & <- & _).
      destruct (stringify_durable_head t0) as (r & ->).
      simpl. rewrite length_app. simpl. lia. }
    specialize (Hj Hall). lia. }
  specialize (Hp (2 * length (stringify (snapshot (t :: l))) + 2
                  - (length (t :: l) + 8))%nat []).
  rewrite app_nil_r in Hp.
  replace (length (t :: l) + 8 +
           (2 * length (stringify (snapshot (t :: l))) + 2
            - (length (t :: l) + 8)))%nat
    with (2 * length (stringify (snapshot (t :: l))) + 2)%nat in Hp by lia.
  rewrite Hp. done.
Qed.

(** ** Persistence *)

Lemma asTodo_hydrate_durable (t : Todo) :
  asTodo (hydrate (durable t)) = Some (set_editing false t).
Proof. destruct t. vm_compute. reflexivity. Qed.

Lemma mapM_asTodo_hydrate (l : list Todo) :
  mapM asTodo (List.map hydrate (List.map durable l))
  = Some (set_editing false <$> l).
Proof.
  induction l as [|t l IH]; [done|].
  change (mapM asTodo (List.map hydrate (List.map durable (t :: l))))
    with (y ← asTodo (hydrate (durable t));
          k ← mapM asTodo (List.map hydrate (List.map durable l));
          mret (y :: k)).
  by rewrite asTodo_hydrate_durable, IH.
Qed.

Lemma durable_fields_set_editing (b : bool) (l : list Todo) :
  durable_fields <$> (set_editing b <$> l) = durable_fields <$> l.
Proof. rewrite <- list_fmap_compose. by apply list_fmap_ext. Qed.

Lemma snapshot_ext (l l' : list Todo) :
  durable_fields <$> l = durable_fields <$> l' → snapshot l = snapshot l'.
Proof.
  unfold snapshot. intros H. f_equal. revert l' H.
  induction l as [|t l IH]; intros [|t' l'] H; try done.
  simpl in H. injection H as H1 H2 H3 H4 H5 H.
  simpl. rewrite (IH l' H). f_equal. unfold durable. congruence.
Qed.

Lemma stringify_snapshot_head (l : list Todo) :
  ∃ r, stringify (snapshot l) = 91%N :: r.
Proof. unfold snapshot. simpl. eauto. Qed.

Lemma load_snapshot (ls : LocalStorage) (l : list Todo) :
  denied ls = false →
  items ls !! STORAGE_KEY = Some (stringify (snapshot l)) →
  load ls = Normal (List.map hydrate (List.map durable l)).
Proof.
  intros Hd Hi. unfold load, getItem. rewrite Hd, Hi.
  destruct (stringify_snapshot_head l) as (r & Hr).
  pose proof (parse_stringify_snapshot l) as Hp. rewrite Hr in *.
  by rewrite Hp.
Qed.

Lemma persist_ok (val : json) (ls : LocalStorage) (out : list LogEntry) :
  denied ls = false → (length (stringify val) ≤ quota ls)%nat →
  persist val ls out
  = Normal (mkStorage (<[STORAGE_KEY := stringify val]> (items ls))
                      (denied ls) (quota ls), out).
Proof.
  intros Hd Hq. unfold persist, setItem. rewrite Hd.
  by rewrite decide_True.
Qed.

(** C5. When the snapshot of a collection is written (the store accepts the
    write), the item under the storage key is its serialisation; a component
    mounted on that store logs nothing and holds as many tasks, in the same
    order, each with the [id], [title], [completed], [createdAt] and
    [updatedAt] of the task it comes from, and [editing] false. *)
Theorem save_load_roundtrip (l : list Todo) (ls : LocalStorage)
    (out : list LogEntry) :
  denied ls = false → (length (stringify (snapshot l)) ≤ quota ls)%nat →
  ∃ ls', persist (snapshot l) ls out = Normal (ls', out)
    ∧ items ls' !! STORAGE_KEY = Some (stringify (snapshot l))
    ∧ parse (stringify (snapshot l)) = Some (snapshot l)
    ∧ onMounted ls' [] = Normal (List.map hydrate (List.map durable l), [])
    ∧ ∃ w, mounted ls' = Some (Normal w)
        ∧ console w = []
        ∧ todos (state w) = set_editing false <$> l
        ∧ durable_fields <$> todos (state w) = durable_fields <$> l
        ∧ ∀ k t, l !! k = Some t →
            ∃ t', todos (state w) !! k = Some t'
              ∧ id t' = id t ∧ title t' = title t
              ∧ completed t' = completed t
              ∧ createdAt t' = createdAt t ∧ updatedAt t' = updatedAt t.
Proof.
  intros Hd Hq. eexists. split; [by apply persist_ok|].
  set (ls' := mkStorage _ _ _).
  assert (Hi : items ls' !! STORAGE_KEY = Some (stringify (snapshot l)))
    by apply lookup_insert_eq.
  assert (Hm : onMounted ls' []
               = Normal (List.map hydrate (List.map durable l), [])).
  { unfold onMounted. by rewrite (load_snapshot ls' l Hd Hi). }
  split; [done|]. split; [apply parse_stringify_snapshot|]. split; [done|].
  unfold mounted. rewrite Hm, mapM_asTodo_hydrate. simpl.
  unfold flush. simpl.
  assert (Hsnap : snapshot (set_editing false <$> l) = snapshot l)
    by apply snapshot_ext, durable_fields_set_editing.
  assert (Hlk : ∀ k t, l !! k = Some t →
            ∃ t', (set_editing false <$> l) !! k = Some t'
              ∧ id t' = id t ∧ title t' = title t
              ∧ completed t' = completed t
              ∧ createdAt t' = createdAt t ∧ updatedAt t' = updatedAt t).
  { intros k t Hk. exists (set_editing false t).
    rewrite list_lookup_fmap, Hk. done. }
  case_decide.
  - eexists. split; [done|]. simpl.
    split_and!; [done|done|apply durable_fields_set_editing|done].
  - rewrite Hsnap, persist_ok by done.
    eexists. split; [done|]. simpl.
    split_and!; [done|done|apply durable_fields_set_editing|done].
Qed.

Lemma save_load_roundtrip_witness :
  ∃ ls', persist (snapshot (todos sample_state)) empty_storage [] = Normal (ls', [])
    ∧ ∃ w, mounted ls' = Some (Normal w)
        ∧ durable_fields <$> todos (state w)
          = durable_fields <$> todos sample_state.
Proof.
  destruct (save_load_roundtrip (todos sample_state) empty_storage [])
    as (ls' & Hp & _ & _ & _ & w & Hw & _ & _ & Hf & _).
  - reflexivity.
  - vm_compute. lia.
  - exists ls'. split; [exact Hp|]. exists w. split; [exact Hw|exact Hf].
Defined.

(** C9. The snapshot of a collection is an array with one object per task,
    in order, whose properties are [id], [title], [completed], [createdAt]
    and [updatedAt] and no other ([editing] is undefined on it); the text
    written to the store reads back as that array.  Collections that agree,
    task by task, on those five fields have the same snapshot and the same
    text, whatever their [editing] flags, and writing them has the same
    effect. *)
Theorem snapshot_durable_only (l l' : list Todo) :
  (∃ objs, snapshot l = JArr objs ∧ length objs = length l
     ∧ Forall (λ o, ∃ props, o = JObj props
                 ∧ fst <$> props
                   = [js "id"; js "title"; js "completed"; js "createdAt";
                      js "updatedAt"]
                 ∧ ¬ (js "editing" ∈ fst <$> props)
                 ∧ get_prop (js "editing") props = None) objs)
  ∧ parse (stringify (snapshot l)) = Some (snapshot l)
  ∧ (∀ b, snapshot (set_editing b <$> l) = snapshot l)
  ∧ (durable_fields <$> l = durable_fields <$> l' →
     snapshot l = snapshot l'
     ∧ stringify (snapshot l) = stringify (snapshot l')
     ∧ ∀ ls out, persist (snapshot l) ls out = persist (snapshot l') ls out).
Proof.
  split_and!.
  - exists (List.map durable l). split; [done|]. split; [apply length_map|].
    apply Forall_forall. intros o Ho.
    apply list_elem_of_In, in_map_iff in Ho as (t & <- & _).
    eexists. split; [reflexivity|]. split; [done|]. split; [|done].
    vm_compute. intros H.
    repeat (apply elem_of_cons in H as [H|H]; [discriminate H|]).
    by apply elem_of_nil in H.
  - apply parse_stringify_snapshot.
  - intros b. apply snapshot_ext, durable_fields_set_editing.
  - intros H. apply snapshot_ext in H. by rewrite H.
Qed.

Lemma snapshot_durable_only_witness :
  stringify (snapshot (todos sample_state))
  = stringify (snapshot (set_editing true <$> todos sample_state)).
Proof.
  apply (snapshot_durable_only (todos sample_state)
           (set_editing true <$> todos sample_state)).
  vm_compute. reflexivity.
Defined.

(** C6, as the code has it.  The hook never throws.  With the key absent,
    or holding the empty string, it pushes nothing and logs nothing.  When
    the stored text is not JSON ([JSON.parse] throws), or reading the store
    throws, it pushes nothing and logs one warning.  When the text is JSON
    but not an array, it pushes nothing and logs nothing.  When the text is
    an array, it pushes one object per element and logs nothing. *)
Theorem onMounted_spec (ls : LocalStorage) (out : list LogEntry) :
  (∃ objs out', onMounted ls out = Normal (objs, out'))
  ∧ (denied ls = false → items ls !! STORAGE_KEY = None →
     onMounted ls out = Normal ([], out)
     ∧ mounted ls = Some (Normal (mkWorld initial ls [])))
  ∧ (denied ls = false → items ls !! STORAGE_KEY = Some [] →
     onMounted ls out = Normal ([], out))
  ∧ (∀ raw, denied ls = false → items ls !! STORAGE_KEY = Some raw →
       raw ≠ [] → parse raw = None →
       onMounted ls out = Normal ([], out ++ [parse_warning SyntaxError])
       ∧ mounted ls
         = Some (Normal (mkWorld initial ls [parse_warning SyntaxError])))
  ∧ (∀ raw v, denied ls = false → items ls !! STORAGE_KEY = Some raw →
       raw ≠ [] → parse raw = Some v → (∀ data, v ≠ JArr data) →
       onMounted ls out = Normal ([], out)
       ∧ mounted ls = Some (Normal (mkWorld initial ls [])))
  ∧ (∀ raw data, denied ls = false → items ls !! STORAGE_KEY = Some raw →
       parse raw = Some (JArr data) →
       onMounted ls out = Normal (List.map hydrate data, out))
  ∧ (denied ls = true →
     onMounted ls out = Normal ([], out ++ [parse_warning SecurityError])
     ∧ mounted ls
       = Some (Normal (mkWorld initial ls [parse_warning SecurityError]))).
Proof.
  unfold mounted, onMounted, load, getItem. split_and!.
  - destruct (denied ls); [by eauto|].
    destruct (items ls !! STORAGE_KEY) as [[|c raw]|]; [by eauto| |by eauto].
    destruct (parse (c :: raw)) as [[]|]; by eauto.
  - by intros -> ->.
  - by intros -> ->.
  - intros raw -> -> Hne ->. by destruct raw.
  - intros raw v -> -> Hne -> Hv. destruct raw; [done|].
    destruct v; try done. by destruct (Hv l).
  - intros raw data -> -> Hp. destruct raw; [|by rewrite Hp].
    by vm_compute in Hp.
  - by intros ->.
Qed.

Lemma onMounted_spec_witness :
  onMounted garbled_storage [] = Normal ([], [parse_warning SyntaxError])
  ∧ onMounted empty_storage [] = Normal ([], []).
Proof.
  split.
  - apply (proj1 (proj2 (proj2 (proj2 (onMounted_spec garbled_storage []))))
             (js "[1,2")); vm_compute; done.
  - apply (proj1 (proj2 (onMounted_spec empty_storage []))); reflexivity.
Defined.

(** C6, as stated, fails: a stored value that is JSON but not an array is
    dropped without a warning. *)
Lemma non_array_logs_nothing :
  items object_storage !! STORAGE_KEY = Some (js "{}")
  ∧ parse (js "{}") = Some (JObj [])
  ∧ onMounted object_storage [] = Normal ([], [])
  ∧ ¬ (∃ objs msg e out, onMounted object_storage [] = Normal (objs, Warn msg e :: out)).
Proof.
  split_and!; try (vm_compute; reflexivity).
  intros (objs & msg & e & out & H). vm_compute in H. discriminate H.
Qed.

(** * Further properties of the component *)

(** ** [uid] *)

Lemma digit_value_digit_char (d : N) :
  (d < 36)%N → digit_value (digit_char d) = d ∧ is_digit36 (digit_char d) = true.
Proof.
  intros H. unfold digit_value, digit_char, is_digit36.
  destruct (N.ltb_spec d 10); cases_N; simpl; try lia; split; try done; lia.
Qed.

Lemma radix_value_snoc (radix : N) (ds : jsstring) (c : N) :
  radix_value radix (ds ++ [c])
  = (radix * radix_value radix ds + digit_value c)%N.
Proof. unfold radix_value. by rewrite foldl_app. Qed.

(** The digits written for [n] in a radix from 2 to 36 are characters of
    [0-9a-z], at least one, and their value in that radix is [n]. *)
Lemma digits_radix_value (fuel : nat) (radix n : N) (acc : jsstring) :
  (2 ≤ radix ≤ 36)%N → (0 < fuel)%nat → (n < 2 ^ N.of_nat fuel)%N →
  ∃ ds, digits_radix fuel radix n acc = ds ++ acc
        ∧ ds ≠ []
        ∧ Forall (λ c, is_digit36 c = true) ds
        ∧ radix_value radix ds = n.
Proof.
  intros Hr. revert n acc.
  induction fuel as [|f IH]; intros n acc Hf Hn; [lia|].
  simpl.
  pose proof (N.div_mod n radix ltac:(lia)) as Hdm.
  pose proof (N.mod_lt n radix ltac:(lia)) as Hmod.
  assert (Hq2 : (n / radix ≤ n / 2)%N).
  { apply N.div_le_compat_l. lia. }
  pose proof (N.div_mod n 2 ltac:(lia)) as Hdm2.
  pose proof (N.mod_lt n 2 ltac:(lia)) as Hmod2.
  remember (n / radix)%N as q eqn:Eq. remember (n mod radix)%N as r eqn:Er.
  remember (n / 2)%N as q2. remember (n mod 2)%N as r2.
  clear Eq Er Heqq2 Heqr2.
  destruct (digit_value_digit_char r ltac:(lia)) as [Hdv Hd36].
  destruct (N.eqb_spec q 0) as [Hq|Hq].
  - exists [digit_char r]. split_and!; [done|done| |].
    + by constructor.
    + unfold radix_value. simpl. rewrite Hdv. subst q. lia.
  - assert (Hf' : (0 < f)%nat).
    { destruct f; [|lia]. assert (n < 2)%N by exact Hn. lia. }
    assert (Hn' : (q < 2 ^ N.of_nat f)%N).
    { rewrite Nat2N.inj_succ, N.pow_succ_r' in Hn. lia. }
    destruct (IH q (digit_char r :: acc) Hf' Hn') as (ds & -> & Hne & Hds & Hv).
    exists (ds ++ [digit_char r]). split_and!.
    + by rewrite <- app_assoc.
    + by destruct ds.
    + apply Forall_app. split; [done|]. by constructor.
    + rewrite radix_value_snoc, Hv, Hdv. lia.
Qed.

Lemma N_toString_value (radix n : N) :
  (2 ≤ radix ≤ 36)%N →
  N_toString radix n ≠ []
  ∧ Forall (λ c, is_digit36 c = true) (N_toString radix n)
  ∧ radix_value radix (N_toString radix n) = n.
Proof.
  intros Hr. unfold N_toString.
  destruct (digits_radix_value (S (N.to_nat (N.log2 n))) radix n [] Hr)
    as (ds & E & H); [lia| |].
  - rewrite Nat2N.inj_succ, N2Nat.id.
    destruct (N.eq_dec n 0%N) as [->|Hn]; [done|].
    apply N.log2_spec. lia.
  - rewrite E, app_nil_r. done.
Qed.

Lemma Z_toString_inj (radix : N) (a b : Z) :
  (2 ≤ radix ≤ 36)%N → Z_toString radix a = Z_toString radix b → a = b.
Proof.
  intros Hr. unfold Z_toString.
  destruct (N_toString_value radix (Z.abs_N a) Hr) as (Hna & Hda & Hva).
  destruct (N_toString_value radix (Z.abs_N b) Hr) as (Hnb & Hdb & Hvb).
  assert (Hhd : ∀ n ds, N_toString radix n = 45%N :: ds → False).
  { intros n ds E. destruct (N_toString_value radix n Hr) as (_ & Hd & _).
    rewrite E in Hd. by apply Forall_cons in Hd as [Hd _]. }
  destruct (Z.ltb_spec a 0), (Z.ltb_spec b 0); intros E.
  - injection E as E. rewrite E in Hva. lia.
  - symmetry in E. by apply Hhd in E.
  - by apply Hhd in E.
  - rewrite E in Hva. lia.
Qed.

(** X1. An id that [uid] makes is never empty; it is the random text
    without its first two characters followed by the clock reading in radix
    36 (for a reading that is not negative: characters of [0-9a-z] whose
    value in radix 36 is the reading); with the same random text, different
    readings of the clock give different ids. *)
Theorem uid_spec (r36 : jsstring) (now now' : Z) :
  uid r36 now ≠ []
  ∧ (0 ≤ now →
     ∃ ds, uid r36 now = drop 2 r36 ++ ds ∧ ds ≠ []
           ∧ Forall (λ c, is_digit36 c = true) ds
           ∧ Z.of_N (radix_value 36 ds) = now)
  ∧ (now ≠ now' → uid r36 now ≠ uid r36 now').
Proof.
  unfold uid, slice_from. split_and!.
  - intros E. apply app_eq_nil in E as [_ E]. unfold Z_toString in E.
    destruct (N_toString_value 36 (Z.abs_N now) ltac:(lia)) as (Hne & _).
    by destruct (now <? 0).
  - intros Hnow. exists (N_toString 36 (Z.abs_N now)).
    destruct (N_toString_value 36 (Z.abs_N now) ltac:(lia)) as (Hne & Hd & Hv).
    unfold Z_toString. destruct (Z.ltb_spec now 0); [lia|].
    split_and!; [done|done|done|]. rewrite Hv. lia.
  - intros Hne E. apply app_inv_head in E.
    apply Z_toString_inj in E; [done|lia].
Qed.

Lemma uid_spec_witness :
  (∃ ds, uid (js "0.4fzz") 1700000000000 = drop 2 (js "0.4fzz") ++ ds
         ∧ ds ≠ [] ∧ Forall (λ c, is_digit36 c = true) ds
         ∧ Z.of_N (radix_value 36 ds) = 1700000000000)
  ∧ uid (js "0.4fzz") 1700000000000 ≠ uid (js "0.4fzz") 1700000000001.
Proof.
  split.
  - apply (proj1 (proj2 (uid_spec (js "0.4fzz") 1700000000000 0))). lia.
  - apply (proj2 (proj2 (uid_spec (js "0.4fzz") 1700000000000 1700000000001))).
    lia.
Defined.

(** ** Adding, looking up, deleting *)

(** X2. The task that [add] makes is the one its id finds, at the front,
    whatever ids the collection already holds; deleting that id gives the
    collection back. *)
Theorem add_then_delete (text : jsstring) (now : Z) (r36 : jsstring)
    (now_uid : Z) (s : State) :
  trim text ≠ [] →
  ∃ t, find (uid r36 now_uid) (todos (add text now r36 now_uid s)) = Some (0%nat, t)
    ∧ title t = trim text
    ∧ todos (deleteTodo (uid r36 now_uid) (add text now r36 now_uid s))
      = todos s.
Proof.
  intros H. unfold add. rewrite addTodo_nonempty by done.
  unfold deleteTodo, find. simpl. rewrite decide_True by done. eauto.
Qed.

Lemma add_then_delete_witness :
  ∃ t, find (uid (js "0.4fzz") 5)
         (todos (add (js " Buy milk ") 5 (js "0.4fzz") 5 sample_state))
       = Some (0%nat, t)
    ∧ title t = js "Buy milk"
    ∧ todos (deleteTodo (uid (js "0.4fzz") 5)
               (add (js " Buy milk ") 5 (js "0.4fzz") 5 sample_state))
      = todos sample_state.
Proof.
  apply (add_then_delete (js " Buy milk ") 5 (js "0.4fzz") 5 sample_state).
  vm_compute. discriminate.
Defined.

(** ** Editing *)

Lemma startEdit_Some tid (s : State) k t :
  find tid (todos s) = Some (k, t) →
  startEdit tid s
  = push_nextTick tid (set_todos (<[k := set_editing true t]> (todos s)) s).
Proof. unfold startEdit. by intros ->. Qed.

Lemma durable_fields_insert (l : list Todo) (k : nat) (t t' : Todo) :
  l !! k = Some t → durable_fields t' = durable_fields t →
  durable_fields <$> <[k := t']> l = durable_fields <$> l.
Proof.
  intros Hk Hd. rewrite list_fmap_insert, Hd.
  apply list_insert_id. by rewrite list_lookup_fmap, Hk.
Qed.

(** X3. Entering edit mode on the task an id designates marks that task,
    queues one [nextTick] callback and changes no durable field; leaving it
    with Escape unmarks the task, and gives the collection back when the task
    was not being edited before. *)
Theorem startEdit_cancel (now : Z) (tid : jsstring) (s : State)
    (k : nat) (t : Todo) :
  find tid (todos s) = Some (k, t) →
  todos (startEdit tid s) = <[k := set_editing true t]> (todos s)
  ∧ nextTicks (startEdit tid s) = nextTicks s ++ [tid]
  ∧ durable_fields <$> todos (startEdit tid s) = durable_fields <$> todos s
  ∧ todos (stopEdit now tid false (startEdit tid s))
    = <[k := set_editing false t]> (todos s)
  ∧ (editing t = Some false →
     todos (stopEdit now tid false (startEdit tid s)) = todos s).
Proof.
  intros Hf. pose proof Hf as (Hk & Hid & _)%find_Some.
  rewrite (startEdit_Some _ _ _ _ Hf).
  assert (Hf' : find tid (todos (push_nextTick tid
             (set_todos (<[k := set_editing true t]> (todos s)) s)))
           = Some (k, set_editing true t))
    by (by apply (find_insert _ _ _ t)).
  rewrite (stopEdit_Some _ _ _ _ _ _ Hf'). simpl.
  rewrite list_insert_insert_eq.
  split_and!; [done|done|by apply (durable_fields_insert _ _ t)|done|].
  intros He. apply list_insert_id. rewrite Hk. f_equal.
  destruct t; simpl in *; by subst.
Qed.

Lemma startEdit_cancel_witness :
  todos (stopEdit 7 (js "k1") false (startEdit (js "k1") sample_state))
  = todos sample_state.
Proof.
  apply (startEdit_cancel 7 (js "k1") sample_state 0
           (mkTodo (js "k1") (js "Water plants") false 1000 1000 (Some false)));
    vm_compute; reflexivity.
Defined.

Lemma flush_durable_eq (s s' : State) (ls : LocalStorage) (out : list LogEntry) :
  durable_fields <$> todos s = durable_fields <$> todos s' →
  flush s s' ls out = Normal (mkWorld s' ls out).
Proof. intros H. unfold flush. by rewrite decide_True. Qed.

Lemma stopEdit_cancel_durable now tid (s : State) :
  durable_fields <$> todos (stopEdit now tid false s) = durable_fields <$> todos s.
Proof.
  unfold stopEdit. destruct (find tid (todos s)) as [[k t]|] eqn:Hf; [|done].
  apply find_Some in Hf as (Hk & _). simpl.
  by apply (durable_fields_insert _ _ t).
Qed.

Lemma startEdit_durable tid (s : State) :
  durable_fields <$> todos (startEdit tid s) = durable_fields <$> todos s.
Proof.
  unfold startEdit. destruct (find tid (todos s)) as [[k t]|] eqn:Hf; [|done].
  apply find_Some in Hf as (Hk & _). simpl.
  by apply (durable_fields_insert _ _ t).
Qed.

(** X4. A commit whose value trims to nothing is a cancel: [stopEdit(id,
    true)] then returns what [stopEdit(id, false)] returns, no durable field
    changes, and pressing Enter or leaving the field writes nothing to
    [localStorage] and logs nothing. *)
Theorem empty_commit_is_cancel (now : Z) (tid : jsstring) (s : State)
    (k : nat) (t : Todo) :
  find tid (todos s) = Some (k, t) → trim (edit_value tid t s) = [] →
  stopEdit now tid true s = stopEdit now tid false s
  ∧ durable_fields <$> todos (stopEdit now tid true s)
    = durable_fields <$> todos s
  ∧ ∀ ls out ev, ev ∈ [KeydownEnterEdit tid now; BlurEdit tid now] →
      dispatch ev (mkWorld s ls out)
      = Normal (mkWorld (stopEdit now tid false s) ls out).
Proof.
  intros Hf Ht.
  assert (E : stopEdit now tid true s = stopEdit now tid false s).
  { rewrite !(stopEdit_Some _ _ _ _ _ _ Hf). unfold edited. by rewrite Ht. }
  split; [done|]. split; [rewrite E; apply stopEdit_cancel_durable|].
  intros ls out ev Hev. unfold dispatch.
  repeat (apply elem_of_cons in Hev as [->|Hev]);
    [..|by apply elem_of_nil in Hev];
    simpl; rewrite E; apply flush_durable_eq; symmetry;
    apply stopEdit_cancel_durable.
Qed.

Lemma empty_commit_is_cancel_witness :
  stopEdit 7 (js "k2") true blank_edit_state
  = stopEdit 7 (js "k2") false blank_edit_state.
Proof.
  apply (empty_commit_is_cancel 7 (js "k2") blank_edit_state 1
           (mkTodo (js "k2") (js "Pay rent") true 900 1200 (Some true)));
    vm_compute; reflexivity.
Defined.

(** ** Events and the store *)

(** X5. Typing in either field, choosing a filter, a key other than Enter
    in the new-task field, entering edit mode, Escape, the ref function and
    the [nextTick] callback change no durable field of any task, write
    nothing to [localStorage] and log nothing. *)
Theorem transient_events_write_nothing (ev : Event) (w : World) :
  transient ev = true →
  ∃ s', handle ev (state w) = Normal s'
    ∧ durable_fields <$> todos s' = durable_fields <$> todos (state w)
    ∧ dispatch ev w = Normal (mkWorld s' (localStorage w) (console w)).
Proof.
  intros Ht.
  assert (H : ∃ s', handle ev (state w) = Normal s'
    ∧ durable_fields <$> todos s' = durable_fields <$> todos (state w)).
  { destruct ev; try done; simpl; try (by eauto).
    - unfold handleNewKey. apply bool_decide_eq_true in Ht.
      rewrite decide_False by done. eauto.
    - destruct (editingInputRefs (state w) !! tid) as [[?|]|]; eauto.
    - eauto using stopEdit_cancel_durable.
    - eauto using startEdit_durable.
    - eauto using startEdit_durable. }
  destruct H as (s' & Hh & Hd). exists s'. split; [done|]. split; [done|].
  unfold dispatch. rewrite Hh. by apply flush_durable_eq.
Qed.

Lemma transient_events_write_nothing_witness :
  ∃ s', handle (ClickFilter Completed) sample_state = Normal s'
    ∧ durable_fields <$> todos s' = durable_fields <$> todos sample_state
    ∧ dispatch (ClickFilter Completed) (mkWorld sample_state full_storage [])
      = Normal (mkWorld s' full_storage []).
Proof.
  apply (transient_events_write_nothing (ClickFilter Completed)
           (mkWorld sample_state full_storage [])).
  reflexivity.
Defined.

Lemma clearCompleted_filter (s : State) :
  clearCompleted s
  = Normal (set_todos (List.filter (λ t, negb (completed t)) (todos s)) s).
Proof.
  unfold clearCompleted. rewrite clearCompleted_loop_spec by done.
  by rewrite firstn_all, drop_all, app_nil_r.
Qed.

Lemma handle_Normal (ev : Event) (s : State) : ∃ s', handle ev s = Normal s'.
Proof.
  destruct ev; simpl; try (by eauto).
  - rewrite clearCompleted_filter. eauto.
  - destruct (editingInputRefs s !! tid) as [[?|]|]; eauto.
Qed.

Lemma persist_cases (val : json) (ls : LocalStorage) (out : list LogEntry) :
  (denied ls = false ∧ (length (stringify val) ≤ quota ls)%nat
   ∧ persist val ls out
     = Normal (mkStorage (<[STORAGE_KEY := stringify val]> (items ls))
                         (denied ls) (quota ls), out))
  ∨ (denied ls = true
     ∧ persist val ls out = Normal (ls, out ++ [save_warning SecurityError]))
  ∨ (denied ls = false ∧ (quota ls < length (stringify val))%nat
     ∧ persist val ls out
       = Normal (ls, out ++ [save_warning QuotaExceededError])).
Proof.
  unfold persist, setItem. destruct (denied ls); [by right; left|].
  case_decide; [left|right; right]; split_and!; (done || lia).
Qed.

(** X6. No event throws, whatever the store holds and whether or not
    [localStorage] accepts the write: the event completes, and the store in
    memory is the one its handler returned. *)
Theorem dispatch_never_throws (ev : Event) (w : World) :
  ∃ w', dispatch ev w = Normal w' ∧ handle ev (state w) = Normal (state w').
Proof.
  destruct (handle_Normal ev (state w)) as (s' & Hh).
  unfold dispatch, flush. rewrite Hh. case_decide; [by eauto|].
  destruct (persist_cases (snapshot (todos s')) (localStorage w) (console w))
    as [(_ & _ & ->)|[(_ & ->)|(_ & _ & ->)]]; eauto.
Qed.

(** X7. When the handler of an event changed a durable field, the watcher
    writes once.  If [localStorage] accepts the write, the item under the
    storage key becomes the serialised snapshot of the new collection and
    nothing is logged.  If it refuses (access denied, or the text is longer
    than it accepts), [localStorage] is left as it was, one warning is
    logged, and the change stays in memory. *)
Theorem dispatch_write (ev : Event) (w : World) (s' : State) :
  handle ev (state w) = Normal s' →
  durable_fields <$> todos (state w) ≠ durable_fields <$> todos s' →
  let text := stringify (snapshot (todos s')) in
  (denied (localStorage w) = false →
   (length text ≤ quota (localStorage w))%nat →
   ∃ ls', dispatch ev w = Normal (mkWorld s' ls' (console w))
          ∧ items ls' !! STORAGE_KEY = Some text)
  ∧ (denied (localStorage w) = true →
     dispatch ev w
     = Normal (mkWorld s' (localStorage w)
                 (console w ++ [save_warning SecurityError])))
  ∧ (denied (localStorage w) = false →
     (quota (localStorage w) < length text)%nat →
     dispatch ev w
     = Normal (mkWorld s' (localStorage w)
                 (console w ++ [save_warning QuotaExceededError]))).
Proof.
  intros Hh Hd text. unfold dispatch, flush. rewrite Hh.
  rewrite decide_False by done.
  destruct (persist_cases (snapshot (todos s')) (localStorage w) (console w))
    as [(Hden & Hq & ->)|[(Hden & ->)|(Hden & Hq & ->)]]; split_and!;
    intros; try done; try congruence; try (unfold text in *; lia).
  eexists. split; [done|]. apply lookup_insert_eq.
Qed.

Lemma dispatch_write_witness :
  dispatch (ChangeCheckbox (js "k1") 1500) (mkWorld sample_state full_storage [])
  = Normal (mkWorld (toggleTodo 1500 (js "k1") sample_state) full_storage
              [save_warning QuotaExceededError]).
Proof.
  apply (dispatch_write (ChangeCheckbox (js "k1") 1500)
           (mkWorld sample_state full_storage [])
           (toggleTodo 1500 (js "k1") sample_state)).
  - reflexivity.
  - vm_compute. discriminate.
  - reflexivity.
  - vm_compute. lia.
Defined.

(** ** Reloading the page *)

Lemma mounted_snapshot (ls : LocalStorage) (l : list Todo) :
  denied ls = false →
  items ls !! STORAGE_KEY = Some (stringify (snapshot l)) →
  (length (stringify (snapshot l)) ≤ quota ls)%nat →
  ∃ w, mounted ls = Some (Normal w)
       ∧ todos (state w) = set_editing false <$> l.
Proof.
  intros Hd Hi Hq. unfold mounted, onMounted.
  rewrite (load_snapshot ls l Hd Hi). simpl.
  rewrite mapM_asTodo_hydrate. simpl. unfold flush. simpl.
  case_decide; [by eauto|].
  rewrite (snapshot_ext (set_editing false <$> l) l)
    by apply durable_fields_set_editing.
  rewrite persist_ok by done. eauto.
Qed.

(** X8. Once a reload would show the tasks in memory, it still would after
    any event whose write [localStorage] accepts: the tasks a component
    mounted on the store then holds have the durable fields of those in
    memory, in the same order. *)
Theorem dispatch_survives_reload (ev : Event) (w w1 : World) :
  denied (localStorage w) = false →
  dispatch ev w = Normal w1 →
  (length (stringify (snapshot (todos (state w1)))) ≤ quota (localStorage w))%nat →
  survives_reload w → survives_reload w1.
Proof.
  intros Hd Hdis Hq (w' & Hm & Hf).
  destruct (handle_Normal ev (state w)) as (s' & Hh).
  unfold dispatch, flush in Hdis. rewrite Hh in Hdis.
  case_decide as Hsame.
  - injection Hdis as <-. exists w'. simpl. split; [done|]. congruence.
  - destruct (persist_cases (snapshot (todos s')) (localStorage w) (console w))
      as [(_ & _ & Hp)|[(Hden & _)|(_ & Hq' & Hp)]].
    + rewrite Hp in Hdis. injection Hdis as <-. simpl in *.
      destruct (mounted_snapshot
                  (mkStorage (<[STORAGE_KEY := stringify (snapshot (todos s'))]>
                                (items (localStorage w)))
                             (denied (localStorage w)) (quota (localStorage w)))
                  (todos s')) as (w2 & Hm2 & Ht2);
        [done|apply lookup_insert_eq|done|].
      exists w2. split; [done|]. rewrite Ht2.
      apply durable_fields_set_editing.
    + congruence.
    + rewrite Hp in Hdis. injection Hdis as <-. simpl in *. lia.
Qed.

Lemma dispatch_survives_reload_witness :
  survives_reload
    match dispatch (ClickAdd 5 (js "0.4fzz") 5) typing_world with
    | Normal w1 | Throw _ w1 => w1
    end.
Proof.
  apply (dispatch_survives_reload (ClickAdd 5 (js "0.4fzz") 5) typing_world).
  - reflexivity.
  - vm_compute. reflexivity.
  - vm_compute. lia.
  - exists (mkWorld initial empty_storage []). split; reflexivity.
Defined.




(** ** What the hook makes of stored values *)

Lemma get_prop_app (key : jsstring) (l1 l2 : list (jsstring * json)) :
  get_prop key (l1 ++ l2)
  = match get_prop key l2 with
    | Some v => Some v
    | None => get_prop key l1
    end.
Proof.
  induction l1 as [|[k v] l1 IH]; simpl.
  - by destruct (get_prop key l2).
  - rewrite IH. by destruct (get_prop key l2).
Qed.

Lemma get_prop_hydrate (key : jsstring) (t : json) :
  get_prop key (hydrate t)
  = if decide (key = js "editing") then Some (JBool false)
    else get_prop key (own_props t).
Proof.
  unfold hydrate. rewrite get_prop_app. simpl.
  case_decide as E1; case_decide as E2; congruence.
Qed.

(** X10. When the stored text is an array, the hook pushes one object per
    element, in order; each has [editing] false whatever the element said
    about [editing], and every other property as the element has it. *)
Theorem onMounted_array (ls : LocalStorage) (out : list LogEntry)
    (raw : jsstring) (data : list json) :
  denied ls = false → items ls !! STORAGE_KEY = Some raw →
  parse raw = Some (JArr data) →
  ∃ objs, onMounted ls out = Normal (objs, out)
    ∧ length objs = length data
    ∧ ∀ i t, data !! i = Some t →
        ∃ o, objs !! i = Some o
          ∧ get_prop (js "editing") o = Some (JBool false)
          ∧ ∀ key, key ≠ js "editing" →
              get_prop key o = get_prop key (own_props t).
Proof.
  intros Hd Hi Hp. exists (List.map hydrate data). split_and!.
  - unfold onMounted, load, getItem. rewrite Hd, Hi.
    destruct raw; [by vm_compute in Hp|]. by rewrite Hp.
  - apply length_map.
  - intros i t Ht. exists (hydrate t). split_and!.
    + change (List.map hydrate data) with (hydrate <$> data).
      by rewrite list_lookup_fmap, Ht.
    + rewrite get_prop_hydrate. by rewrite decide_True.
    + intros key Hk. rewrite get_prop_hydrate. by rewrite decide_False.
Qed.

Lemma onMounted_array_witness :
  ∃ objs, onMounted editing_storage [] = Normal (objs, [])
    ∧ length objs = 1%nat
    ∧ ∀ i t, stored_editing !! i = Some t →
        ∃ o, objs !! i = Some o
          ∧ get_prop (js "editing") o = Some (JBool false)
          ∧ ∀ key, key ≠ js "editing" →
              get_prop key o = get_prop key (own_props t).
Proof.
  apply (onMounted_array editing_storage []
           (stringify (JArr stored_editing)) stored_editing);
    vm_compute; reflexivity.
Defined.

(** ** Invariants of the handlers *)

Lemma trimStart_id (u : jsstring) :
  (∀ c, head u = Some c → isWhiteSpace c = false) → trimStart u = u.
Proof.
  destruct u as [|c u]; [done|]. intros H. simpl. by rewrite (H c eq_refl).
Qed.

Lemma trim_idemp (s : jsstring) : trim (trim s) = trim s.
Proof.
  destruct (trim_split s) as (_ & _ & _ & _ & _ & Hh & Hl).
  unfold trim at 1. rewrite trimStart_id by done. unfold trimEnd.
  rewrite trimStart_id; [apply reverse_involutive|].
  intros c. rewrite head_reverse. apply Hl.
Qed.

Lemma Forall_filter_bool (P : Todo → Prop) (f : Todo → bool) (l : list Todo) :
  Forall P l → Forall P (List.filter f l).
Proof.
  rewrite !Forall_forall. intros H t Ht.
  apply list_elem_of_In, List.filter_In in Ht as [Ht _].
  by apply H, list_elem_of_In.
Qed.

(** A property of tasks that adding a well-formed task, replacing a task by
    a well-formed one and removing tasks keep, every handler keeps. *)
Lemma handle_Forall (P : Todo → Prop) (ev : Event) (s s' : State) :
  (∀ now r36 now_uid,
     trim (newTitle s) ≠ [] → clock_of ev = Some now →
     P (mkTodo (uid r36 now_uid) (trim (newTitle s)) false now now (Some false))) →
  (∀ now t, t ∈ todos s → P t → clock_of ev = Some now → P (toggled now t)) →
  (∀ now raw c t, t ∈ todos s → P t → (c = true → clock_of ev = Some now) →
     P (edited now raw c t)) →
  (∀ t, P t → P (set_editing true t)) →
  Forall P (todos s) → handle ev s = Normal s' → Forall P (todos s').
Proof.
  intros Hadd Htog Hed Hst HP.
  assert (Hin : ∀ tid k t, find tid (todos s) = Some (k, t) → t ∈ todos s ∧ P t).
  { intros tid k t (Hk & _)%find_Some. split.
    - by eapply list_elem_of_lookup_2.
    - by eapply (proj1 (Forall_lookup _ _) HP). }
  assert (Hadd' : ∀ now r36 now_uid, clock_of ev = Some now →
            Forall P (todos (addTodo now r36 now_uid s))).
  { intros now r36 now_uid Hc. unfold addTodo.
    destruct (trim (newTitle s)) eqn:E; [done|]. simpl.
    constructor; [|done]. by apply Hadd. }
  assert (Hstop : ∀ now tid c, (c = true → clock_of ev = Some now) →
            Forall P (todos (stopEdit now tid c s))).
  { intros now tid c Hc.
    destruct (find tid (todos s)) as [[k t]|] eqn:Hf.
    - rewrite (stopEdit_Some _ _ _ _ _ _ Hf). simpl.
      destruct (Hin _ _ _ Hf). apply Forall_insert; [done|]. by apply Hed.
    - unfold stopEdit. by rewrite Hf. }
  assert (Hstart : ∀ tid, Forall P (todos (startEdit tid s))).
  { intros tid. unfold startEdit.
    destruct (find tid (todos s)) as [[k t]|] eqn:Hf; [|done]. simpl.
    destruct (Hin _ _ _ Hf). apply Forall_insert; [done|]. by apply Hst. }
  destruct ev; simpl; intros Hh; try (injection Hh as <-); simpl; try done;
    try (by apply Hadd'); try (by apply Hstop); try (by apply Hstart).
  - unfold handleNewKey. case_decide; [by apply Hadd'|done].
  - rewrite clearCompleted_filter in Hh. injection Hh as <-. simpl.
    by apply Forall_filter_bool.
  - unfold toggleTodo. destruct (find tid (todos s)) as [[k t]|] eqn:Hf; [|done].
    simpl. destruct (Hin _ _ _ Hf). apply Forall_insert; [done|].
    by apply (Htog now).
  - destruct (editingInputRefs s !! tid) as [[?|]|]; by injection Hh as <-.
  - unfold deleteTodo. destruct (find tid (todos s)) as [[k t]|] eqn:Hf; [|done].
    simpl. by apply Forall_delete.
Qed.

(** X11. Every handler keeps the titles well formed: when every title in
    the collection is trimmed and not empty, it is so after any event. *)
Theorem titles_stay_trimmed (ev : Event) (s s' : State) :
  Forall trimmed_title (todos s) → handle ev s = Normal s' →
  Forall trimmed_title (todos s').
Proof.
  apply handle_Forall.
  - intros now r36 now_uid Hne _. split; [done|apply trim_idemp].
  - intros now t _ Ht _. done.
  - intros now raw c t _ Ht _. unfold edited, trimmed_title.
    destruct c; [|done]. destruct (trim raw) eqn:E; [done|]. simpl.
    rewrite <- E. split; [by rewrite E|apply trim_idemp].
  - done.
Qed.

Lemma titles_stay_trimmed_witness :
  Forall trimmed_title (todos (stopEdit 2000 (js "k2") true editing_state)).
Proof.
  apply (titles_stay_trimmed (KeydownEnterEdit (js "k2") 2000) editing_state).
  - repeat constructor; vm_compute; try discriminate; reflexivity.
  - reflexivity.
Defined.

(** X12. Every handler keeps [createdAt <= updatedAt] on every task when
    the clock it reads is not behind the [createdAt] of any task. *)
Theorem timestamps_stay_ordered (ev : Event) (s s' : State) :
  (∀ now t, clock_of ev = Some now → t ∈ todos s → createdAt t ≤ now) →
  Forall (λ t, createdAt t ≤ updatedAt t) (todos s) →
  handle ev s = Normal s' →
  Forall (λ t, createdAt t ≤ updatedAt t) (todos s').
Proof.
  intros Hclock. apply handle_Forall.
  - intros. simpl. lia.
  - intros now t Ht _ Hc. simpl. by apply Hclock.
  - intros now raw c t Ht HP Hc. unfold edited.
    destruct c; [|done]. destruct (trim raw); [done|]. simpl.
    apply Hclock; auto.
  - done.
Qed.

Lemma timestamps_stay_ordered_witness :
  Forall (λ t, createdAt t ≤ updatedAt t)
    (todos (toggleTodo 1300 (js "k2") sample_state)).
Proof.
  apply (timestamps_stay_ordered (ChangeCheckbox (js "k2") 1300) sample_state).
  - intros now t [= <-] Ht.
    repeat (apply elem_of_cons in Ht as [->|Ht]); [..|by apply elem_of_nil in Ht];
      vm_compute; discriminate.
  - repeat constructor; vm_compute; discriminate.
  - reflexivity.
Defined.

(** ** Ids *)

Lemma sublist_fmap_birth (l1 l2 : list Todo) :
  l1 `sublist_of` l2 → birth <$> l1 `sublist_of` birth <$> l2.
Proof.
  induction 1; simpl; [constructor|by apply sublist_skip|by apply sublist_cons].
Qed.

Lemma sublist_filter_bool (f : Todo → bool) (l : list Todo) :
  List.filter f l `sublist_of` l.
Proof.
  induction l as [|t l IH]; simpl; [constructor|].
  destruct (f t); [by apply sublist_skip|by apply sublist_cons].
Qed.

Lemma birth_insert (l : list Todo) (k : nat) (t t' : Todo) :
  l !! k = Some t → birth t' = birth t →
  birth <$> <[k := t']> l = birth <$> l.
Proof.
  intros Hk Hb. rewrite list_fmap_insert, Hb.
  apply list_insert_id. by rewrite list_lookup_fmap, Hk.
Qed.

(** X13. No handler rewrites the [id] or the [createdAt] of a task, and
    only adding brings a new one in: after any event, either the collection
    is the old one with one task added at the front, or the ids and creation
    times it holds are those of the old one, in order, with some removed.
    So ids that are unique stay unique, as long as the id [uid] makes for a
    new task is not already taken. *)
Theorem ids_are_stable (ev : Event) (s s' : State) :
  handle ev s = Normal s' →
  (birth <$> todos s' `sublist_of` birth <$> todos s
   ∨ ∃ t, todos s' = t :: todos s)
  ∧ (NoDup (id <$> todos s) →
     (∀ t, todos s' = t :: todos s → id t ∉ id <$> todos s) →
     NoDup (id <$> todos s')).
Proof.
  intros Hh.
  assert (H : birth <$> todos s' `sublist_of` birth <$> todos s
              ∨ ∃ t, todos s' = t :: todos s).
  { assert (Hadd : ∀ now r36 now_uid,
      birth <$> todos (addTodo now r36 now_uid s) `sublist_of` birth <$> todos s
      ∨ ∃ t, todos (addTodo now r36 now_uid s) = t :: todos s).
    { intros. unfold addTodo. destruct (trim (newTitle s)); [by left|].
      right. simpl. eauto. }
    assert (Hstop : ∀ now tid c,
      birth <$> todos (stopEdit now tid c s) `sublist_of` birth <$> todos s).
    { intros. unfold stopEdit.
      destruct (find tid (todos s)) as [[k t]|] eqn:Hf; [|done].
      apply find_Some in Hf as (Hk & _). simpl.
      rewrite (birth_insert _ _ t); [done|done|].
      destruct c; [destruct (trim _)|]; done. }
    assert (Hstart : ∀ tid,
      birth <$> todos (startEdit tid s) `sublist_of` birth <$> todos s).
    { intros. unfold startEdit.
      destruct (find tid (todos s)) as [[k t]|] eqn:Hf; [|done].
      apply find_Some in Hf as (Hk & _). simpl.
      by rewrite (birth_insert _ _ t). }
    destruct ev; simpl in Hh; try (injection Hh as <-); simpl;
      try (by left); try (by apply Hadd); try (by left; apply Hstop);
      try (by left; apply Hstart).
    - unfold handleNewKey. case_decide; [by apply Hadd|by left].
    - rewrite clearCompleted_filter in Hh. injection Hh as <-. simpl. left.
      apply sublist_fmap_birth, sublist_filter_bool.
    - left. unfold toggleTodo.
      destruct (find tid (todos s)) as [[k t]|] eqn:Hf; [|done].
      apply find_Some in Hf as (Hk & _). simpl.
      by rewrite (birth_insert _ _ t).
    - destruct (editingInputRefs s !! tid) as [[?|]|];
        injection Hh as <-; by left.
    - left. unfold deleteTodo.
      destruct (find tid (todos s)) as [[k t]|] eqn:Hf; [|done]. simpl.
      apply sublist_fmap_birth, sublist_delete. }
  split; [done|]. intros Hnd Hfresh.
  destruct H as [H|(t & Ht)].
  - apply (sublist_NoDup _ (id <$> todos s)); [done|].
    assert (E : ∀ l : list Todo, id <$> l = fst <$> (birth <$> l)).
    { intros l. rewrite <- list_fmap_compose. by apply list_fmap_ext. }
    rewrite !E. clear -H. induction H; simpl;
      [constructor|by apply sublist_skip|by apply sublist_cons].
  - rewrite Ht. simpl. apply NoDup_cons. split; [by apply Hfresh|done].
Qed.

Lemma ids_are_stable_witness :
  NoDup (id <$> todos (deleteTodo (js "k2") sample_state)).
Proof.
  apply (ids_are_stable (ClickDelete (js "k2")) sample_state).
  - reflexivity.
  - apply NoDup_ListNoDup. repeat constructor; vm_compute;
      intros H; repeat destruct H as [H|H]; try discriminate H; done.
  - intros t Ht. vm_compute in Ht. discriminate Ht.
Defined.

(** X14. With unique ids, [deleteTodo] deletes: the id is gone from the
    collection, and every task with another id is still there. *)
Theorem deleteTodo_removes (tid : jsstring) (s : State) :
  NoDup (id <$> todos s) →
  ¬ (tid ∈ id <$> todos (deleteTodo tid s))
  ∧ ∀ t, t ∈ todos s → id t ≠ tid → t ∈ todos (deleteTodo tid s).
Proof.
  intros Hnd. unfold deleteTodo.
  destruct (find tid (todos s)) as [[k t]|] eqn:Hf.
  - apply find_Some in Hf as (Hk & Hid & _). simpl. split.
    + rewrite list_fmap_delete.
      intros (j & Hj)%list_elem_of_lookup_1.
      assert (Hk' : (id <$> todos s) !! k = Some tid)
        by (by rewrite list_lookup_fmap, Hk, <- Hid).
      destruct (decide (j < k)%nat).
      * rewrite list_lookup_delete_lt in Hj by done.
        pose proof (NoDup_lookup _ _ _ _ Hnd Hj Hk'). lia.
      * rewrite list_lookup_delete_ge in Hj by lia.
        pose proof (NoDup_lookup _ _ _ _ Hnd Hj Hk'). lia.
    + intros t' (j & Hj)%list_elem_of_lookup_1 Hne.
      assert (j ≠ k) by (intros ->; congruence).
      destruct (decide (j < k)%nat).
      * apply (list_elem_of_lookup_2 _ j).
        by rewrite list_lookup_delete_lt.
      * apply (list_elem_of_lookup_2 _ (j - 1)).
        rewrite list_lookup_delete_ge by lia.
        by replace (S (j - 1)) with j by lia.
  - apply find_None in Hf. done.
Qed.

Lemma deleteTodo_removes_witness :
  ¬ (js "k2" ∈ id <$> todos (deleteTodo (js "k2") sample_state)).
Proof.
  apply (deleteTodo_removes (js "k2") sample_state).
  apply NoDup_ListNoDup. repeat constructor; vm_compute;
    intros H; repeat destruct H as [H|H]; try discriminate H; done.
Defined.

(** ** The counts *)





(** X16. After [clearCompleted] no task is completed: the count of
    completed tasks is zero (the button that calls it is no longer shown),
    the count of tasks left is what it was, the "active" view is the whole
    collection, and calling it again changes nothing. *)
Theorem clearCompleted_counts (s s' : State) :
  clearCompleted s = Normal s' →
  completedCount s' = 0%nat
  ∧ remainingCount s' = remainingCount s
  ∧ filtered (set_filter Active s') = todos s'
  ∧ clearCompleted s' = Normal s'.
Proof.
  rewrite clearCompleted_filter. intros [= <-].
  assert (Hidem : ∀ l : list Todo,
    List.filter (λ t, negb (completed t)) (List.filter (λ t, negb (completed t)) l)
    = List.filter (λ t, negb (completed t)) l).
  { induction l as [|t l IH]; [done|]. simpl.
    destruct (completed t) eqn:E; simpl; [done|]. by rewrite E, IH. }
  assert (Hnone : ∀ l : list Todo,
    List.filter (λ t, completed t) (List.filter (λ t, negb (completed t)) l) = []).
  { induction l as [|t l IH]; [done|]. simpl.
    destruct (completed t) eqn:E; simpl; [done|]. by rewrite E. }
  unfold completedCount, remainingCount, filtered. simpl.
  rewrite Hidem, Hnone. split_and!; try done.
  rewrite clearCompleted_filter. simpl. rewrite Hidem. done.
Qed.

Lemma clearCompleted_counts_witness :
  completedCount (set_todos (List.filter (λ t, negb (completed t))
                               (todos sample_state)) sample_state) = 0%nat.
Proof.
  apply (clearCompleted_counts sample_state). apply clearCompleted_filter.
Defined.

(** ** Typing, then committing *)

(** X17. What is committed is what was typed: once the edit field of a
    task is registered, text typed in it is the raw value of the next commit,
    whose trimmed form (when not empty) becomes the title.  With no field
    registered for the id (never set, or set to [null]), typing changes
    nothing and a commit falls back on the title the task has, trimmed. *)
Theorem typed_value_is_committed (now : Z) (tid v : jsstring) (s : State)
    (k : nat) (t : Todo) :
  find tid (todos s) = Some (k, t) →
  (∀ el, editingInputRefs s !! tid = Some (Some el) →
     ∃ s1, handle (TypeEdit tid v) s = Normal s1
       ∧ todos s1 = todos s
       ∧ edit_value tid t s1 = v
       ∧ (trim v ≠ [] →
          ∃ t', todos (stopEdit now tid true s1) !! k = Some t'
            ∧ title t' = trim v ∧ updatedAt t' = now))
  ∧ (editingInputRefs s !! tid = None ∨ editingInputRefs s !! tid = Some None →
     handle (TypeEdit tid v) s = Normal s
     ∧ edit_value tid t s = title t
     ∧ ∃ t', todos (stopEdit now tid true s) !! k = Some t'
         ∧ title t' = match trim (title t) with
                      | [] => title t
                      | _ :: _ => trim (title t)
                      end).
Proof.
  intros Hf. pose proof Hf as (Hk & _)%find_Some.
  assert (Hlt : (k < length (todos s))%nat) by (by eapply lookup_lt_Some).
  split.
  - intros el Hel. simpl. rewrite Hel. eexists. split; [done|].
    split; [done|].
    assert (Hv : edit_value tid t
              (set_editingInputRefs
                 (<[tid := Some (mkInput v)]> (editingInputRefs s)) s) = v).
    { unfold edit_value. simpl. by rewrite lookup_insert_eq. }
    split; [done|]. intros Hne.
    rewrite (stopEdit_Some now tid true _ k t) by done. rewrite Hv. simpl.
    eexists. split; [by apply list_lookup_insert_eq|].
    unfold edited. by destruct (trim v).
  - intros Hno.
    assert (Hv : edit_value tid t s = title t).
    { unfold edit_value. by destruct Hno as [-> | ->]. }
    split; [simpl; by destruct Hno as [-> | ->]|]. split; [done|].
    rewrite (stopEdit_Some _ _ _ _ _ _ Hf), Hv. simpl.
    eexists. split; [by apply list_lookup_insert_eq|].
    unfold edited. by destruct (trim (title t)).
Qed.

Lemma typed_value_is_committed_witness :
  ∃ s1, handle (TypeEdit (js "k2") (js " Pay the rent ")) editing_state = Normal s1
    ∧ todos s1 = todos editing_state
    ∧ edit_value (js "k2")
        (mkTodo (js "k2") (js "Pay rent") true 900 1200 (Some true)) s1
      = js " Pay the rent "
    ∧ (trim (js " Pay the rent ") ≠ [] →
       ∃ t', todos (stopEdit 2000 (js "k2") true s1) !! 1%nat = Some t'
         ∧ title t' = trim (js " Pay the rent ") ∧ updatedAt t' = 2000).
Proof.
  apply (proj1 (typed_value_is_committed 2000 (js "k2") (js " Pay the rent ")
                  editing_state 1
                  (mkTodo (js "k2") (js "Pay rent") true 900 1200 (Some true))
                  ltac:(vm_compute; reflexivity))
           (mkInput (js "  new title  "))).
  vm_compute. reflexivity.
Defined.
